(** * ngesplit: the polygon area-partitioning engine (split.js)

    A shallow embedding of the geometry primitives ([shoelaceArea],
    [interpolate], [clipHorizontal], [splitAtEdges]), of the chord search
    ([findOptimalSplit]) and of the four partition drivers.

    Numbers.  JavaScript numbers are IEEE 754 binary64, and the code is
    embedded over two arithmetics.

    Module [Gen] holds [shoelaceArea], [interpolate], [splitAtEdges] and
    [findOptimalSplit] with the arithmetic as a parameter.  At [binary64]
    (the primitive floats: every operation rounds to nearest even,
    overflows to an infinity, yields NaN where undefined) these are the
    functions as JavaScript runs them, and what is stated about the value
    of an area or about the chord the search picks is stated there.

    The clippers, the drivers and the request handler are embedded over the
    exact rationals [Q]: [+ - * /] are the field operations, [Math.abs] is
    [Qabs], [<], [<=] and [!==] the decidable comparisons of [Q], and the
    literal [Infinity] that initialises [bestDiff] is [None] in an
    [option Q].  What is proved there is about structure: which points are
    output and in which order, how many pieces, which loop runs how often,
    which error is raised.  Rounding, overflow and NaN are outside that
    part; [Gen] at [rational] is the same code, definition by definition.

    Arrays.  A ring is a [list] of points, a point a pair [(x, y)].  The
    argument [coords] of a driver is a [jsArg], so that the test
    [Array.isArray(coords)] has both outcomes.

    Control.  [for] loops are folds over the list of their index values;
    a loop that can be left early ([return], [break], an exception)
    is a [forEach] whose body answers [Next] or [Exit]. *)

From Stdlib Require Import Floats.
From Stdlib Require Import String Bool.
From Stdlib Require Import List ZArith QArith Qabs Qround Qminmax Qpower.
From Stdlib Require Import Lia Lqa Sorting.Sorted.
Import ListNotations.

Local Open Scope Q_scope.

(* ================================================================= *)
(** ** Numbers *)

(** [a < b] on numbers. *)
Definition Qltb (a b : Q) : bool :=
  match a ?= b with Lt => true | _ => false end.

(** [a !== b] on numbers. *)
Definition Qneqb (a b : Q) : bool := negb (Qeq_bool a b).

(** [Number.isInteger(q)]. *)
Definition isInteger (q : Q) : bool := Qeq_bool q (inject_Z (Qfloor q)).

(** [Math.round(q)]: the nearest integer, halves rounded up. *)
Definition mathRound (q : Q) : Q := inject_Z (Qfloor (q + (1 # 2))).

(** A loop counter as a number. *)
Definition num (i : nat) : Q := inject_Z (Z.of_nat i).

(** [diff < bestDiff] where [bestDiff] starts at [Infinity] ([None]). *)
Definition belowBest (diff : Q) (bestDiff : option Q) : bool :=
  match bestDiff with
  | None => true
  | Some b => Qltb diff b
  end.

(* ================================================================= *)
(** ** Points, rings, loops *)

Definition point : Type := (Q * Q)%type.
Definition ring : Type := list point.

(** [points[i]] for an index inside the array. *)
Definition at_ (points : ring) (i : nat) : point := nth i points (0, 0).

(** What one run of a loop body asks for: the next iteration with a new
    state, or leaving the loop at once with a value. *)
Inductive flow (S R : Type) : Type :=
| Next (s : S)
| Exit (r : R).
Arguments Next {S R} s.
Arguments Exit {S R} r.

Fixpoint forEach {A S R : Type} (xs : list A) (body : A -> S -> flow S R)
  (s : S) : flow S R :=
  match xs with
  | [] => Next s
  | x :: xs' =>
      match body x s with
      | Next s' => forEach xs' body s'
      | Exit r => Exit r
      end
  end.

(** What a driver call ends with. *)
Inductive outcome (A : Type) : Type :=
| Returned (a : A)
| Thrown (msg : string).
Arguments Returned {A} a.
Arguments Thrown {A} msg.

(** The [coords] argument of a driver. *)
Inductive jsArg : Type :=
| Arr (coords : ring)
| NotArr.

(* ================================================================= *)
(** ** Geometry primitives *)

(** The summand [x1 * y2 - x2 * y1] of the edge [(p1, p2)]. *)
Definition cross (p1 p2 : point) : Q :=
  let '(x1, y1) := p1 in
  let '(x2, y2) := p2 in
  x1 * y2 - x2 * y1.

(** The value of [area] after the loop of [shoelaceArea]. *)
Definition shoelaceSum (points : ring) : Q :=
  let n := length points in
  fold_left
    (fun area i => area + cross (at_ points i) (at_ points ((i + 1) mod n)))
    (seq 0 n) 0.

(** Shoelace formula to compute polygon area. *)
Definition shoelaceArea (points : ring) : Q :=
  Qabs (shoelaceSum points) / 2.

(** Linear interpolation between two points. *)
Definition interpolate (p1 p2 : point) (t : Q) : point :=
  (fst p1 + t * (fst p2 - fst p1), snd p1 + t * (snd p2 - snd p1)).

(** [(y1 < y && y2 > y) || (y1 > y && y2 < y)]. *)
Definition crosses (y1 y2 y : Q) : bool :=
  (Qltb y1 y && Qltb y y2) || (Qltb y y1 && Qltb y2 y).

(** The point pushed for an edge that crosses the line [y]. *)
Definition crossingPoint (a b : point) (y : Q) : point :=
  let '(x1, y1) := a in
  let '(x2, y2) := b in
  let t := (y - y1) / (y2 - y1) in
  (x1 + t * (x2 - x1), y).

(** The points one iteration of the loop of [clipHorizontal] pushes. *)
Definition clipEdge (a b : point) (yMin yMax : Q) : list point :=
  let y1 := snd a in
  let y2 := snd b in
  (if Qle_bool yMin y1 && Qle_bool y1 yMax then [a] else [])
  ++ (if crosses y1 y2 yMin then [crossingPoint a b yMin] else [])
  ++ (if crosses y1 y2 yMax then [crossingPoint a b yMax] else []).

(** Close the polygon if needed. *)
Definition closeRing (clipped : ring) : ring :=
  match clipped with
  | [] => []
  | first :: _ =>
      let last := List.last clipped first in
      if Qneqb (fst first) (fst last) || Qneqb (snd first) (snd last)
      then clipped ++ [first]
      else clipped
  end.

(** Clip polygon between two y-values (horizontal slicing). *)
Definition clipHorizontal (polygon : ring) (yMin yMax : Q) : ring :=
  let n := length polygon in
  let clipped :=
    fold_left
      (fun clipped i =>
         clipped ++ clipEdge (at_ polygon i) (at_ polygon ((i + 1) mod n))
                      yMin yMax)
      (seq 0 n) [] in
  closeRing clipped.

(** The loop [for (k = start; k !== stop; k = (k + 1) % n) push(polygon[k])].
    [bound] caps the number of iterations; [walk_bound_enough] shows that
    [length polygon] iterations reach the exit test for indices in range. *)
Fixpoint walk (polygon : ring) (bound k stop : nat) : list point :=
  match bound with
  | O => []
  | S bound' =>
      if (k =? stop)%nat then []
      else at_ polygon k
             :: walk polygon bound' ((k + 1) mod length polygon) stop
  end.

(** Split polygon between two edges at given interpolation values. *)
Definition splitAtEdges (polygon : ring) (i j : nat) (ti tj : Q)
  : ring * ring :=
  let n := length polygon in
  let pi := interpolate (at_ polygon i) (at_ polygon ((i + 1) mod n)) ti in
  let pj := interpolate (at_ polygon j) (at_ polygon ((j + 1) mod n)) tj in
  let poly1 := [pi] ++ walk polygon n ((i + 1) mod n) ((j + 1) mod n) ++ [pj] in
  let poly2 := [pj] ++ walk polygon n ((j + 1) mod n) ((i + 1) mod n) ++ [pi] in
  (poly1, poly2).

(* ================================================================= *)
(** ** Chord search *)

(** [bestSplit] ([null] is [None]) and [bestDiff] ([Infinity] is [None]). *)
Definition searchState : Type := (option (ring * ring) * option Q)%type.

(** [Math.abs(i - j) < 2 || Math.abs(i - j) > n - 2]. *)
Definition skipPair (n i j : nat) : bool :=
  let d := Z.abs (Z.of_nat i - Z.of_nat j) in
  ((d <? 2) || (d >? Z.of_nat n - 2))%Z.

(** First piece of the chord [(i, j, si, sj)] and its distance to the
    target. *)
Definition chordSplit (polygon : ring) (steps : nat)
  (c : nat * nat * nat * nat) : ring * ring :=
  let '(i, j, si, sj) := c in
  splitAtEdges polygon i j (num si / num steps) (num sj / num steps).

Definition chordDiff (polygon : ring) (targetArea : Q) (steps : nat)
  (c : nat * nat * nat * nat) : Q :=
  Qabs (shoelaceArea (fst (chordSplit polygon steps c)) - targetArea).

(** Body of the innermost loop. *)
Definition tryChord (polygon : ring) (targetArea : Q) (steps : nat)
  (tolerance : Q) (c : nat * nat * nat * nat) (st : searchState)
  : flow searchState (ring * ring) :=
  let split := chordSplit polygon steps c in
  let diff := chordDiff polygon targetArea steps c in
  let st' := if belowBest diff (snd st) then (Some split, Some diff) else st in
  if Qltb diff (tolerance * targetArea) then Exit split else Next st'.

(** Find optimal split to achieve target area.  [steps] is a natural
    number: the loops run [si], [sj] over [1 .. steps - 1]. *)
Definition findOptimalSplit (polygon : ring) (targetArea : Q) (steps : nat)
  (tolerance : Q) : option (ring * ring) :=
  let n := length polygon in
  let fractions := seq 1 (steps - 1) in
  match
    forEach (seq 0 n) (fun i =>
      forEach (seq 0 n) (fun j st =>
        if skipPair n i j then Next st
        else
          forEach fractions (fun si =>
            forEach fractions (fun sj =>
              tryChord polygon targetArea steps tolerance (i, j, si, sj)))
            st))
      (None, None)
  with
  | Next (bestSplit, _) => bestSplit
  | Exit split => Some split
  end.

Definition defaultSteps : nat := 10.
Definition defaultTolerance : Q := 5 # 100.

(* ================================================================= *)
(** ** Partition drivers *)

(** Number of runs of [for (let i = 0; i < count - 1; i++)] for a count
    that passed validation. *)
Definition peelRuns (count : Q) : nat := Z.to_nat (Qfloor count - 1).

(** One run of the peel loop of [splitEqualArea]; [Exit] is [break]. *)
Definition peelStep (count : Q) (i : nat) (st : list ring * ring)
  : flow (list ring * ring) (list ring * ring) :=
  let '(parts, current) := st in
  let remainingArea := shoelaceArea current in
  let target := remainingArea / (count - num i) in
  match findOptimalSplit current target defaultSteps defaultTolerance with
  | None => Exit (parts, current)
  | Some (piece, rest) => Next (parts ++ [piece], rest)
  end.

(** 1. Split polygon into N parts with equal area (arbitrary cuts). *)
Definition splitEqualArea (coords : jsArg) (count : Q)
  : outcome (list ring) :=
  match coords with
  | NotArr => Thrown "Coordinates must be an array"%string
  | Arr coords =>
      if Qle_bool count 0 || negb (isInteger count)
      then Thrown "Count must be positive integer"%string
      else
        match forEach (seq 0 (peelRuns count)) (peelStep count) ([], coords) with
        | Next (parts, current) | Exit (parts, current) =>
            Returned (parts ++ [current])
        end
  end.

(** [Math.max(1, Math.round(totalArea / area))]. *)
Definition derivedCount (coords : ring) (area : Q) : Q :=
  Qmax 1 (mathRound (shoelaceArea coords / area)).

(** 2. Split polygon into parts with specified area (arbitrary cuts). *)
Definition splitByArea (coords : jsArg) (area : Q) : outcome (list ring) :=
  match coords with
  | NotArr => Thrown "Coordinates must be an array"%string
  | Arr coords =>
      if Qle_bool area 0 then Thrown "Area must be positive"%string
      else splitEqualArea (Arr coords) (derivedCount coords area)
  end.

(** [Math.min(...ys)] and [Math.max(...ys)].  On an empty array JavaScript
    answers [Infinity] and [-Infinity]; the model answers [0] there.  The
    two values then only reach [clipHorizontal] together with the empty
    ring, whose result does not depend on them ([clipHorizontal_nil]). *)
Definition minOf (ys : list Q) : Q :=
  match ys with
  | [] => 0
  | y :: ys' => fold_left Qmin ys' y
  end.

Definition maxOf (ys : list Q) : Q :=
  match ys with
  | [] => 0
  | y :: ys' => fold_left Qmax ys' y
  end.

(** One run of the binary search; [Exit] is the [break] that sets
    [bestSlice]. *)
Definition bisectStep (remaining : ring) (currentY targetArea : Q)
  (iter : nat) (st : Q * Q) : flow (Q * Q) ring :=
  let '(low, high) := st in
  let midY := (low + high) / 2 in
  let slice := clipHorizontal remaining currentY midY in
  let area := shoelaceArea slice in
  if Qltb (Qabs (area - targetArea)) ((1 # 100) * targetArea) then Exit slice
  else if Qltb area targetArea then Next (midY, high)
  else Next (low, midY).

(** Binary search for optimal split position: [bestSlice] after the inner
    loop ([null] is [None]). *)
Definition bandSearch (remaining : ring) (currentY maxY targetArea : Q)
  : option ring :=
  match forEach (seq 0 20) (bisectStep remaining currentY targetArea)
          (currentY, maxY) with
  | Exit slice => Some slice
  | Next _ => None
  end.

(** [bestSlice] as pushed: the searched slice, or the fallback. *)
Definition chooseBand (remaining : ring) (currentY maxY targetArea count : Q)
  (i : nat) : ring :=
  match bandSearch remaining currentY maxY targetArea with
  | Some slice => slice
  | None =>
      clipHorizontal remaining currentY
        (currentY + (maxY - currentY) / (count - num i))
  end.

(** [bestSlice[bestSlice.length - 1]]: [undefined] on the empty array. *)
Definition lastPoint (r : ring) : option point :=
  match r with
  | [] => None
  | p :: _ => Some (List.last r p)
  end.

(** State of the horizontal peel loop: [parts], [currentY], [remaining]. *)
Definition bandState : Type := (list ring * Q * ring)%type.

(** One run of the peel loop of [splitHorizontalEqualArea]; [Exit] is the
    TypeError of reading [[1]] of [undefined]. *)
Definition bandStep (maxY targetArea count : Q) (i : nat) (st : bandState)
  : flow bandState string :=
  let '(parts, currentY, remaining) := st in
  let bestSlice := chooseBand remaining currentY maxY targetArea count i in
  match lastPoint bestSlice with
  | None => Exit "TypeError: cannot read properties of undefined"%string
  | Some p =>
      let currentY' := snd p in
      Next (parts ++ [bestSlice], currentY',
            clipHorizontal remaining currentY' maxY)
  end.

(** 3. Split polygon horizontally into N equal area parts. *)
Definition splitHorizontalEqualArea (coords : jsArg) (count : Q)
  : outcome (list ring) :=
  match coords with
  | NotArr => Thrown "Coordinates must be an array"%string
  | Arr coords =>
      if Qle_bool count 0 || negb (isInteger count)
      then Thrown "Count must be positive integer"%string
      else
        let ys := map snd coords in
        let minY := minOf ys in
        let maxY := maxOf ys in
        let totalArea := shoelaceArea coords in
        let targetArea := totalArea / count in
        match forEach (seq 0 (peelRuns count))
                (bandStep maxY targetArea count) ([], minY, coords) with
        | Exit msg => Thrown msg
        | Next (parts, _, remaining) =>
            Returned (match remaining with
                      | [] => parts
                      | _ :: _ => parts ++ [remaining]
                      end)
        end
  end.

(** 4. Split polygon horizontally into parts with specified area. *)
Definition splitHorizontalByArea (coords : jsArg) (area : Q)
  : outcome (list ring) :=
  match coords with
  | NotArr => Thrown "Coordinates must be an array"%string
  | Arr coords =>
      if Qle_bool area 0 then Thrown "Area must be positive"%string
      else splitHorizontalEqualArea (Arr coords) (derivedCount coords area)
  end.

(* ================================================================= *)
(** ** The request handler (server.js) *)

(** Handles the splitting based on mode. *)
Definition performSplit (coords : jsArg) (mode : string) (value : Q)
  : outcome (list ring) :=
  if String.eqb mode "count" then splitEqualArea coords value
  else if String.eqb mode "area" then splitByArea coords value
  else if String.eqb mode "horizontal-count"
       then splitHorizontalEqualArea coords value
  else if String.eqb mode "horizontal-area"
       then splitHorizontalByArea coords value
  else Thrown ("Unknown split mode: " ++ mode)%string.

(** The handler's test
    [["count", "area", "horizontal-count", "horizontal-area"].includes(mode)]. *)
Definition acceptedMode (mode : string) : bool :=
  existsb (String.eqb mode)
    ["count"; "area"; "horizontal-count"; "horizontal-area"]%string.



(* ================================================================= *)
(** ** Horizontal grid slices (splitGrid.js) *)

(** Check if a segment meets the line [y]. *)
Definition segmentIntersectsY (a b : point) (y : Q) : bool :=
  (Qle_bool (snd a) y && Qle_bool y (snd b))
  || (Qle_bool y (snd a) && Qle_bool (snd b) y).

(** Find X where a segment intersects Y. *)
Definition intersectXAtY (a b : point) (y : Q) : Q :=
  let dy := snd b - snd a in
  if Qeq_bool dy 0 then fst a
  else
    let t := (y - snd a) / dy in
    fst a + t * (fst b - fst a).

(** The points one iteration of the loop of [clipPolygonHorizontally]
    pushes.  The guard [isFinite(x)] holds for every rational [x]. *)
Definition gridEdge (a b : point) (yMin yMax : Q) : list point :=
  (if segmentIntersectsY a b yMin then [(intersectXAtY a b yMin, yMin)]
   else [])
  ++ (if Qle_bool yMin (snd a) && Qle_bool (snd a) yMax then [a] else [])
  ++ (if segmentIntersectsY a b yMax then [(intersectXAtY a b yMax, yMax)]
      else []).

(** Clip polygon between yMin and yMax: fewer than 4 points give the empty
    ring; otherwise the first point is pushed when it differs from the last
    one, which is [closeRing] on a ring that is not empty. *)
Definition clipPolygonHorizontally (points : ring) (yMin yMax : Q) : ring :=
  let n := length points in
  let result :=
    fold_left
      (fun result i =>
         result
         ++ gridEdge (at_ points i) (at_ points ((i + 1) mod n)) yMin yMax)
      (seq 0 n) [] in
  if (length result <? 4)%nat then [] else closeRing result.


Section Slice.

(** [project.forward] and [unproject.inverse] of the projection library. *)
Variables (project unproject : point -> point).




End Slice.

(* ================================================================= *)
(** ** Specification-side notions *)

(** Sum of [cross] over the consecutive pairs of an open path. *)
Fixpoint path (l : ring) : Q :=
  match l with
  | a :: (b :: _) as r => cross a b + path r
  | _ => 0
  end.

(** The same sum around the ring, the last vertex joined to the first. *)
Definition closedPath (l : ring) : Q :=
  match l with
  | [] => 0
  | p :: _ => path (l ++ [p])
  end.

(** The ring started [k] vertices later (cyclically). *)
Definition rotate (k : nat) (l : ring) : ring :=
  skipn (k mod length l) l ++ firstn (k mod length l) l.

(** Pointwise equality of points and rings as numbers. *)
Definition point_eq (p q : point) : Prop := fst p == fst q /\ snd p == snd q.
Definition ring_eq (r s : ring) : Prop := Forall2 point_eq r s.

(** A chord candidate: the edge pair [(i, j)] and the numerators
    [(si, sj)] of the two fractions. *)
Definition chord : Type := (nat * nat * nat * nat)%type.

(** The candidates in the order the four nested loops visit them. *)
Definition candidates (n steps : nat) : list chord :=
  flat_map (fun i =>
    flat_map (fun j =>
      if skipPair n i j then []
      else
        flat_map (fun si =>
          map (fun sj => (i, j, si, sj)) (seq 1 (steps - 1)))
          (seq 1 (steps - 1)))
      (seq 0 n))
    (seq 0 n).

(** Ascending order on [(i, j, si, sj)]. *)
Definition chord_lt (c d : chord) : Prop :=
  let '(i, j, si, sj) := c in
  let '(i', j', si', sj') := d in
  (i < i' \/ (i = i' /\ (j < j' \/ (j = j' /\
     (si < si' \/ (si = si' /\ sj < sj'))))))%nat.

(** [|area - target| < tolerance * target] for the first piece of [c]. *)
Definition withinTolerance (polygon : ring) (targetArea : Q) (steps : nat)
  (tolerance : Q) (c : chord) : bool :=
  Qltb (chordDiff polygon targetArea steps c) (tolerance * targetArea).

(** [st] is the running best of the candidates [seen]. *)
Definition bestOf (polygon : ring) (targetArea : Q) (steps : nat)
  (seen : list chord) (st : searchState) : Prop :=
  match st with
  | (None, None) => seen = []
  | (Some split, Some diff) =>
      exists c, In c seen
        /\ split = chordSplit polygon steps c
        /\ diff = chordDiff polygon targetArea steps c
        /\ forall c', In c' seen ->
             chordDiff polygon targetArea steps c
             <= chordDiff polygon targetArea steps c'
  | _ => False
  end.

(** The peel loop of [splitEqualArea] as a recursion on the number of runs
    left: run [i] on the ring [current] asks the chord search for
    [area(current) / (count - i)]; without a cut, [current] is the last
    piece. *)
Fixpoint peel (count : Q) (runs i : nat) (current : ring) : list ring :=
  match runs with
  | O => [current]
  | S runs' =>
      match findOptimalSplit current (shoelaceArea current / (count - num i))
              defaultSteps defaultTolerance with
      | None => [current]
      | Some (piece, rest) => piece :: peel count runs' (S i) rest
      end
  end.

(** The interval [(low, high)] of the binary search of the band after [k]
    runs, none of which accepted: each run halves it at
    [mid = (low + high) / 2], raising [low] when the slice up to [mid] is
    smaller than the target and lowering [high] otherwise. *)
Fixpoint bisectInterval (remaining : ring) (currentY maxY targetArea : Q)
  (k : nat) : Q * Q :=
  match k with
  | O => (currentY, maxY)
  | S k' =>
      let '(low, high) :=
        bisectInterval remaining currentY maxY targetArea k' in
      let mid := (low + high) / 2 in
      if Qltb (shoelaceArea (clipHorizontal remaining currentY mid)) targetArea
      then (mid, high)
      else (low, mid)
  end.

(** The slice run [k] looks at, and whether it is within 1% of the target. *)
Definition midSlice (remaining : ring) (currentY maxY targetArea : Q)
  (k : nat) : ring :=
  let '(low, high) := bisectInterval remaining currentY maxY targetArea k in
  clipHorizontal remaining currentY ((low + high) / 2).

Definition accepts (remaining : ring) (currentY maxY targetArea : Q)
  (k : nat) : bool :=
  Qltb (Qabs (shoelaceArea (midSlice remaining currentY maxY targetArea k)
              - targetArea))
       ((1 # 100) * targetArea).

(** An edge from height [y1] to height [y2] passes the line [y] with one
    endpoint strictly below and the other strictly above. *)
Definition strictlyAcross (y1 y2 y : Q) : Prop :=
  (y1 < y /\ y < y2) \/ (y < y1 /\ y2 < y).


(** The square of side 10 and a two-point ring, used in the examples. *)
Definition square : ring := [(0, 0); (10, 0); (10, 10); (0, 10)].
Definition segment : ring := [(3, 4); (7 # 2, -1)].

(** The [d] vertices of the ring that start at index [s], cyclically. *)
Definition cyc (l : ring) (s d : nat) : list point :=
  map (fun e => at_ l ((s + e) mod length l)) (seq 0 d).

(** A ring is closed when it is empty or its first and last points are the
    same point. *)
Definition closed (l : ring) : Prop :=
  match l with
  | [] => True
  | first :: _ => point_eq first (List.last l first)
  end.

(** Every point of the ring has its [y] within [yMin, yMax]. *)
Definition withinBand (yMin yMax : Q) (l : ring) : Prop :=
  Forall (fun p => yMin <= snd p /\ snd p <= yMax) l.



(** The point lies in the box spanned by the two points. *)
Definition inBox (a b p : point) : Prop :=
  Qmin (fst a) (fst b) <= fst p /\ fst p <= Qmax (fst a) (fst b)
  /\ Qmin (snd a) (snd b) <= snd p /\ snd p <= Qmax (snd a) (snd b).


(* ================================================================= *)
(** ** The area and the chord search over a chosen arithmetic *)

(** [shoelaceArea], [interpolate], [splitAtEdges] and [findOptimalSplit]
    once more, line by line, with the arithmetic as a parameter: the
    numbers, the literals [0] and [2], [+ - * /], [Math.abs], [<], the test
    [x < Infinity] and the conversion of a loop counter.  With [binary64]
    the definitions compute what JavaScript computes, bit for bit; with
    [rational] they are the definitions above.  Array indices and loop
    counters stay natural numbers: they are integers far below [2^53], which
    doubles hold exactly. *)
Module Gen.

Record arith : Type := {
  number : Type;
  zero : number;
  two : number;
  add : number -> number -> number;
  sub : number -> number -> number;
  mul : number -> number -> number;
  div : number -> number -> number;
  abs : number -> number;
  ltb : number -> number -> bool;
  belowInfinity : number -> bool;
  ofNat : nat -> number
}.

(** What the chord search needs of [<]: it is a strict order, and what is
    below a number below [Infinity] is below [Infinity]. *)
Record ordered (A : arith) : Prop := {
  ltb_irrefl : forall x, ltb A x x = false;
  ltb_trans : forall x y z,
    ltb A x y = true -> ltb A y z = true -> ltb A x z = true;
  below_closed : forall x y,
    ltb A x y = true -> belowInfinity A y = true -> belowInfinity A x = true
}.

Section Code.

Variable A : arith.

Local Notation "x [+] y" := (add A x y) (at level 50, left associativity).
Local Notation "x [-] y" := (sub A x y) (at level 50, left associativity).
Local Notation "x [*] y" := (mul A x y) (at level 40, left associativity).
Local Notation "x [/] y" := (div A x y) (at level 40, left associativity).
Local Notation "x [<] y" := (ltb A x y) (at level 70, no associativity).

Definition point : Type := (number A * number A)%type.
Definition ring : Type := list point.

(** [points[i]] for an index inside the array. *)
Definition at_ (points : ring) (i : nat) : point :=
  nth i points (zero A, zero A).

(** The summand [x1 * y2 - x2 * y1] of the edge [(p1, p2)]. *)
Definition cross (p1 p2 : point) : number A :=
  let '(x1, y1) := p1 in
  let '(x2, y2) := p2 in
  x1 [*] y2 [-] x2 [*] y1.

(** The value of [area] after the loop of [shoelaceArea]. *)
Definition shoelaceSum (points : ring) : number A :=
  let n := length points in
  fold_left
    (fun area i =>
       area [+] cross (at_ points i) (at_ points ((i + 1) mod n)))
    (seq 0 n) (zero A).

(** Shoelace formula to compute polygon area. *)
Definition shoelaceArea (points : ring) : number A :=
  abs A (shoelaceSum points) [/] two A.

(** Linear interpolation between two points. *)
Definition interpolate (p1 p2 : point) (t : number A) : point :=
  (fst p1 [+] t [*] (fst p2 [-] fst p1),
   snd p1 [+] t [*] (snd p2 [-] snd p1)).

(** The loop [for (k = start; k !== stop; k = (k + 1) % n) push(polygon[k])],
    at most [bound] times round. *)
Fixpoint walk (polygon : ring) (bound k stop : nat) : list point :=
  match bound with
  | O => []
  | S bound' =>
      if (k =? stop)%nat then []
      else at_ polygon k
             :: walk polygon bound' ((k + 1) mod length polygon) stop
  end.

(** Split polygon between two edges at given interpolation values. *)
Definition splitAtEdges (polygon : ring) (i j : nat) (ti tj : number A)
  : ring * ring :=
  let n := length polygon in
  let pi := interpolate (at_ polygon i) (at_ polygon ((i + 1) mod n)) ti in
  let pj := interpolate (at_ polygon j) (at_ polygon ((j + 1) mod n)) tj in
  let poly1 := [pi] ++ walk polygon n ((i + 1) mod n) ((j + 1) mod n) ++ [pj] in
  let poly2 := [pj] ++ walk polygon n ((j + 1) mod n) ((i + 1) mod n) ++ [pi] in
  (poly1, poly2).

(** [bestSplit] ([null] is [None]) and [bestDiff] (the initial [Infinity]
    is [None]). *)
Definition searchState : Type :=
  (option (ring * ring) * option (number A))%type.

(** Body of the innermost loop. *)
Definition tryChord (polygon : ring) (targetArea : number A) (steps : nat)
  (tolerance : number A) (c : nat * nat * nat * nat) (st : searchState)
  : flow searchState (ring * ring) :=
  let '(i, j, si, sj) := c in
  let ti := ofNat A si [/] ofNat A steps in
  let tj := ofNat A sj [/] ofNat A steps in
  let '(poly1, poly2) := splitAtEdges polygon i j ti tj in
  let area := shoelaceArea poly1 in
  let diff := abs A (area [-] targetArea) in
  let below :=
    match snd st with
    | None => belowInfinity A diff
    | Some bestDiff => diff [<] bestDiff
    end in
  let st' := if below then (Some (poly1, poly2), Some diff) else st in
  if diff [<] tolerance [*] targetArea then Exit (poly1, poly2) else Next st'.

(** Find optimal split to achieve target area. *)
Definition findOptimalSplit (polygon : ring) (targetArea : number A)
  (steps : nat) (tolerance : number A) : option (ring * ring) :=
  let n := length polygon in
  let fractions := seq 1 (steps - 1) in
  match
    forEach (seq 0 n) (fun i =>
      forEach (seq 0 n) (fun j st =>
        if skipPair n i j then Next st
        else
          forEach fractions (fun si =>
            forEach fractions (fun sj =>
              tryChord polygon targetArea steps tolerance (i, j, si, sj)))
            st))
      (None, None)
  with
  | Next (bestSplit, _) => bestSplit
  | Exit split => Some split
  end.

End Code.

End Gen.

(** Exact rational arithmetic: nothing rounds, nothing overflows, every
    number is below [Infinity]. *)
Definition rational : Gen.arith :=
  {| Gen.number := Q;
     Gen.zero := 0;
     Gen.two := 2;
     Gen.add := Qplus;
     Gen.sub := Qminus;
     Gen.mul := Qmult;
     Gen.div := Qdiv;
     Gen.abs := Qabs;
     Gen.ltb := Qltb;
     Gen.belowInfinity := fun _ => true;
     Gen.ofNat := num |}.

(** IEEE 754 binary64, the numbers of JavaScript: every operation rounds to
    nearest even, overflows to an infinity and yields NaN where undefined. *)
Definition binary64 : Gen.arith :=
  {| Gen.number := float;
     Gen.zero := 0%float;
     Gen.two := 2%float;
     Gen.add := PrimFloat.add;
     Gen.sub := PrimFloat.sub;
     Gen.mul := PrimFloat.mul;
     Gen.div := PrimFloat.div;
     Gen.abs := PrimFloat.abs;
     Gen.ltb := PrimFloat.ltb;
     Gen.belowInfinity := fun x => PrimFloat.ltb x infinity;
     Gen.ofNat := fun i => of_uint63 (Uint63.of_Z (Z.of_nat i)) |}.

(* ================================================================= *)
(** ** Specification-side notions for binary64 *)

(** The rational number a double stands for; none for NaN and the
    infinities. *)
Definition SFvalue (x : spec_float) : option Q :=
  match x with
  | S754_zero _ => Some 0
  | S754_finite s m e =>
      let v := inject_Z (Zpos m) * 2 ^ e in
      Some (if s then - v else v)
  | _ => None
  end.

Definition valueOf (x : float) : option Q := SFvalue (Prim2SF x).

(** [r] when it stands for exactly [q]. *)
Definition exactly (r : float) (q : Q) : option float :=
  match valueOf r with
  | Some v => if Qeq_bool v q then Some r else None
  | None => None
  end.

Definition checked1 (f : float -> float) (g : Q -> Q) (x : option float)
  : option float :=
  match x with
  | Some a =>
      match valueOf a with
      | Some va => exactly (f a) (g va)
      | None => None
      end
  | None => None
  end.

Definition checked2 (f : float -> float -> float) (g : Q -> Q -> Q)
  (x y : option float) : option float :=
  match x, y with
  | Some a, Some b =>
      match valueOf a, valueOf b with
      | Some va, Some vb => exactly (f a b) (g va vb)
      | _, _ => None
      end
  | _, _ => None
  end.

(** Binary64 with a check on every operation: the result of the double
    operation when it is the exact result on the numbers its operands stand
    for, and nothing from the first operation on that rounds, overflows or
    has no value. *)
Definition checked : Gen.arith :=
  {| Gen.number := option float;
     Gen.zero := Some 0%float;
     Gen.two := Some 2%float;
     Gen.add := checked2 PrimFloat.add Qplus;
     Gen.sub := checked2 PrimFloat.sub Qminus;
     Gen.mul := checked2 PrimFloat.mul Qmult;
     Gen.div := checked2 PrimFloat.div Qdiv;
     Gen.abs := checked1 PrimFloat.abs Qabs;
     Gen.ltb := fun x y =>
       match x, y with
       | Some a, Some b => PrimFloat.ltb a b
       | _, _ => false
       end;
     Gen.belowInfinity := fun x =>
       match x with
       | Some a => PrimFloat.ltb a infinity
       | None => false
       end;
     Gen.ofNat := fun i => Some (of_uint63 (Uint63.of_Z (Z.of_nat i))) |}.

(** A ring of doubles as an input of the checked run, and the ring of
    rationals its coordinates stand for. *)
Definition checkedRing (l : list (float * float))
  : Gen.ring checked :=
  map (fun p => (Some (fst p), Some (snd p))) l.

Definition rationalOf (x : float) : Q :=
  match valueOf x with
  | Some v => v
  | None => 0
  end.

Definition rationalRing (l : list (float * float)) : ring :=
  map (fun p => (rationalOf (fst p), rationalOf (snd p))) l.

(** The ring started [k] vertices later (cyclically). *)
Definition rotateList {T : Type} (k : nat) (l : list T) : list T :=
  skipn (k mod length l) l ++ firstn (k mod length l) l.

(** No operation of [shoelaceArea(points)] rounds, overflows or meets NaN. *)
Definition exactRun (points : list (float * float)) : bool :=
  match Gen.shoelaceArea checked (checkedRing points) with
  | Some _ => true
  | None => false
  end.

(** Points of two runs of the same code, one in [A] and one in [B], whose
    coordinates correspond by [R]. *)
Definition relatedPoints (A B : Gen.arith)
  (R : Gen.number A -> Gen.number B -> Prop)
  (p : Gen.point A) (q : Gen.point B) : Prop :=
  R (fst p) (fst q) /\ R (snd p) (snd q).

(** A checked run that ends with [r] is the binary64 run. *)
Definition sameRun (c : option float) (x : float) : Prop :=
  forall r, c = Some r -> r = x.

(** A checked run that ends with [r] ends with the double that stands for
    the result of the exact run. *)
Definition sameValue (c : option float) (q : Q) : Prop :=
  forall r v, c = Some r -> valueOf r = Some v -> v == q.

(** A double that is a zero or finite, and two doubles that differ by
    their sign only (zeros of any sign do). *)
Definition SFfinite (x : spec_float) : bool :=
  match x with
  | S754_zero _ | S754_finite _ _ _ => true
  | _ => false
  end.

Definition opposite (x y : spec_float) : Prop :=
  match x, y with
  | S754_zero _, S754_zero _ => True
  | S754_infinity s, S754_infinity s' => s' = negb s
  | S754_nan, S754_nan => True
  | S754_finite s m e, S754_finite s' m' e' => s' = negb s /\ m' = m /\ e' = e
  | _, _ => False
  end.

(** The edge summands of a ring of doubles are all finite. *)
Definition finiteTerms (points : list (float * float)) : bool :=
  let n := length points in
  forallb
    (fun i =>
       is_finite (Gen.cross binary64 (Gen.at_ binary64 points i)
                    (Gen.at_ binary64 points ((i + 1) mod n))))
    (seq 0 n).

Set Warnings "-inexact-float".

(** Rings of doubles: a triangle whose computed area depends on the start
    vertex, a point whose coordinate product overflows, a square whose
    every piece has an overflowing area, and a square of side 10. *)
Definition triangle64 : list (float * float) :=
  [(1.8, 2.7); (2.5, 2.4); (0.2, 0.8)]%float.
Definition farPoint64 : list (float * float) := [(1e200, 1e200)]%float.
Definition hugeSquare64 : list (float * float) :=
  [(0, 0); (1e155, 0); (1e155, 1e155); (0, 1e155)]%float.
Definition square64 : list (float * float) :=
  [(0, 0); (10, 0); (10, 10); (0, 10)]%float.

(** The pieces the chord [c] cuts, and the distance of the first one to
    the target, in the arithmetic [A]. *)
Definition piecesOf (A : Gen.arith) (polygon : Gen.ring A) (steps : nat)
  (c : chord) : Gen.ring A * Gen.ring A :=
  let '(i, j, si, sj) := c in
  Gen.splitAtEdges A polygon i j
    (Gen.div A (Gen.ofNat A si) (Gen.ofNat A steps))
    (Gen.div A (Gen.ofNat A sj) (Gen.ofNat A steps)).

Definition distanceOf (A : Gen.arith) (polygon : Gen.ring A)
  (targetArea : Gen.number A) (steps : nat) (c : chord) : Gen.number A :=
  Gen.abs A
    (Gen.sub A (Gen.shoelaceArea A (fst (piecesOf A polygon steps c)))
       targetArea).

(** [st] holds one of the candidates [seen] whose distance is below
    [Infinity] and that no distance of a candidate [seen] is below; it is
    empty while no distance is below [Infinity]. *)
Definition leastOf (A : Gen.arith) (polygon : Gen.ring A)
  (targetArea : Gen.number A) (steps : nat) (seen : list chord)
  (st : Gen.searchState A) : Prop :=
  match st with
  | (None, None) =>
      forall c, In c seen ->
        Gen.belowInfinity A (distanceOf A polygon targetArea steps c) = false
  | (Some split, Some diff) =>
      exists c, In c seen
        /\ split = piecesOf A polygon steps c
        /\ diff = distanceOf A polygon targetArea steps c
        /\ Gen.belowInfinity A diff = true
        /\ forall c', In c' seen ->
             Gen.ltb A (distanceOf A polygon targetArea steps c') diff = false
  | _ => False
  end.

(** A ring of two points, and the square of side 10 with its first point
    repeated at the end. *)
Definition segment64 : list (float * float) := [(3, 4); (3.5, -1)]%float.
Definition closedSquare64 : list (float * float) :=
  [(0, 0); (10, 0); (10, 10); (0, 10); (0, 0)]%float.

(* ================================================================= *)
(** ** Numbers: the boolean tests and their meaning *)

Lemma Qltb_lt (a b : Q) : Qltb a b = true <-> a < b.
Proof.
  unfold Qltb. rewrite Qlt_alt.
  destruct (a ?= b); split; intro H; congruence.
Qed.

Lemma Qltb_ge (a b : Q) : Qltb a b = false <-> b <= a.
Proof.
  rewrite <- not_true_iff_false, Qltb_lt. split.
  - apply Qnot_lt_le.
  - apply Qle_not_lt.
Qed.

Lemma Qle_bool_false (a b : Q) : Qle_bool a b = false <-> b < a.
Proof.
  rewrite <- not_true_iff_false, Qle_bool_iff. split.
  - apply Qnot_le_lt.
  - apply Qlt_not_le.
Qed.

Lemma Qneqb_refl (a : Q) : Qneqb a a = false.
Proof. unfold Qneqb. now rewrite Qeq_bool_refl. Qed.

Lemma Qneqb_false (a b : Q) : Qneqb a b = false <-> a == b.
Proof.
  unfold Qneqb. rewrite negb_false_iff. apply Qeq_bool_iff.
Qed.

(* ================================================================= *)
(** ** The model on the square *)

Example shoelaceArea_square : shoelaceArea square == 100.
Proof. reflexivity. Qed.

Example clipHorizontal_square_lower_half :
  ring_eq (clipHorizontal square 0 5)
    [(0, 0); (10, 0); (10, 5); (0, 5); (0, 0)].
Proof. vm_compute. repeat constructor. Qed.

Example splitAtEdges_square :
  splitAtEdges square 0 2 (1 # 2) (1 # 2)
  = ([interpolate (0, 0) (10, 0) (1 # 2); (10, 0); (10, 10);
      interpolate (10, 10) (0, 10) (1 # 2)],
     [interpolate (10, 10) (0, 10) (1 # 2); (0, 10); (0, 0);
      interpolate (0, 0) (10, 0) (1 # 2)]).
Proof. reflexivity. Qed.

Example candidates_square_first :
  hd_error (candidates 4 10) = Some (0, 2, 1, 1)%nat
  /\ length (candidates 4 10) = 324%nat.
Proof. split; reflexivity. Qed.

Example findOptimalSplit_square :
  option_map (fun split => Qred (shoelaceArea (fst split)))
    (findOptimalSplit square 50 defaultSteps defaultTolerance)
  = Some 50.
Proof. vm_compute. reflexivity. Qed.

Example findOptimalSplit_triangle :
  findOptimalSplit [(0, 0); (10, 0); (0, 10)] 25 defaultSteps defaultTolerance
  = None.
Proof. reflexivity. Qed.

Example splitEqualArea_square_four :
  match splitEqualArea (Arr square) 4 with
  | Returned parts => map (fun r => Qred (shoelaceArea r)) parts
  | Thrown _ => []
  end = [25; 51 # 2; 477 # 20; 513 # 20].
Proof. vm_compute. reflexivity. Qed.

Example splitHorizontalEqualArea_empty_two :
  splitHorizontalEqualArea (Arr []) 2
  = Thrown "TypeError: cannot read properties of undefined".
Proof. reflexivity. Qed.

(* ================================================================= *)
(** ** The shoelace sum *)

Lemma cross_antisym (a b : point) : cross b a == - cross a b.
Proof. destruct a, b. unfold cross. ring. Qed.

Lemma cross_self (a : point) : cross a a == 0.
Proof. destruct a. unfold cross. ring. Qed.

Lemma fold_add_shift {A : Type} (f : A -> Q) (l : list A) (a : Q) :
  fold_left (fun acc i => acc + f i) l a
  == a + fold_right (fun i s => f i + s) 0 l.
Proof.
  revert a. induction l as [|x l IH]; intro a; simpl.
  - ring.
  - rewrite IH. ring.
Qed.

Lemma fold_right_ext_in {A : Type} (f g : A -> Q) (l : list A) :
  (forall i, In i l -> f i == g i) ->
  fold_right (fun i s => f i + s) 0 l == fold_right (fun i s => g i + s) 0 l.
Proof.
  induction l as [|x l IH]; intro H; simpl.
  - reflexivity.
  - rewrite (H x (or_introl eq_refl)), IH; [reflexivity|].
    intros i Hi. apply H. now right.
Qed.

Lemma fold_right_seq_S (g : nat -> Q) (m : nat) :
  fold_right (fun i s => g i + s) 0 (seq 1 m)
  = fold_right (fun i s => g (S i) + s) 0 (seq 0 m).
Proof.
  rewrite <- seq_shift. induction (seq 0 m) as [|x l IH]; simpl.
  - reflexivity.
  - now rewrite IH.
Qed.

Lemma path_nth (l : ring) (d : point) :
  path l
  == fold_right (fun i s => cross (nth i l d) (nth (S i) l d) + s) 0
       (seq 0 (length l - 1)).
Proof.
  induction l as [|a [|b r] IH].
  - reflexivity.
  - reflexivity.
  - change (path (a :: b :: r)) with (cross a b + path (b :: r)).
    rewrite IH.
    replace (length (a :: b :: r) - 1)%nat with (S (length (b :: r) - 1))
      by (simpl; lia).
    rewrite <- cons_seq. cbn [fold_right].
    rewrite (fold_right_seq_S
               (fun i => cross (nth i (a :: b :: r) d)
                           (nth (S i) (a :: b :: r) d))).
    reflexivity.
Qed.

Lemma shoelaceSum_closedPath (l : ring) : shoelaceSum l == closedPath l.
Proof.
  unfold shoelaceSum.
  rewrite (fold_add_shift
             (fun i => cross (at_ l i) (at_ l ((i + 1) mod length l)))).
  destruct l as [|p r]; [reflexivity|].
  unfold closedPath. rewrite (path_nth _ (0, 0)).
  rewrite Qplus_0_l.
  replace (length ((p :: r) ++ [p]) - 1)%nat with (length (p :: r))
    by (rewrite length_app; simpl; lia).
  apply fold_right_ext_in. intros i Hi. apply in_seq in Hi.
  unfold at_. set (l := p :: r) in *.
  rewrite (app_nth1 l [p] (0, 0)) by lia.
  destruct (Nat.eq_dec (S i) (length l)) as [E|E].
  - replace ((i + 1) mod length l)%nat with 0%nat
      by (rewrite Nat.add_1_r, E, Nat.Div0.mod_same; reflexivity).
    rewrite app_nth2 by lia. rewrite E, Nat.sub_diag. reflexivity.
  - rewrite Nat.mod_small by lia. rewrite Nat.add_1_r.
    rewrite app_nth1 by lia. reflexivity.
Qed.

Lemma path_cons2 (a b : point) (r : ring) :
  path (a :: b :: r) = cross a b + path (b :: r).
Proof. reflexivity. Qed.

Lemma path_app (l1 l2 : ring) (m : point) :
  path (l1 ++ m :: l2) == path (l1 ++ [m]) + path (m :: l2).
Proof.
  induction l1 as [|a [|b l1] IH].
  - simpl. ring.
  - cbn [app]. rewrite !path_cons2. simpl (path [m]). ring.
  - change ((a :: b :: l1) ++ m :: l2) with (a :: b :: (l1 ++ m :: l2)).
    change ((a :: b :: l1) ++ [m]) with (a :: b :: (l1 ++ [m])).
    rewrite !path_cons2.
    change (b :: l1 ++ m :: l2) with ((b :: l1) ++ m :: l2).
    rewrite IH. cbn [app]. ring.
Qed.

Lemma path_rev (l : ring) : path (rev l) == - path l.
Proof.
  induction l as [|a [|b r] IH].
  - simpl. ring.
  - simpl. ring.
  - rewrite path_cons2.
    change (rev (a :: b :: r)) with (rev (b :: r) ++ [a]).
    change (rev (b :: r)) with (rev r ++ [b]) at 1.
    rewrite <- app_assoc. cbn [app].
    rewrite (path_app (rev r) [a] b). change (rev r ++ [b]) with (rev (b :: r)).
    rewrite IH, path_cons2, cross_antisym. simpl (path [a]). ring.
Qed.

Lemma closedPath_app_comm (l1 l2 : ring) :
  closedPath (l1 ++ l2) == closedPath (l2 ++ l1).
Proof.
  destruct l1 as [|a l1]; [now rewrite app_nil_r|].
  destruct l2 as [|b l2]; [now rewrite app_nil_r|].
  unfold closedPath. cbn [app].
  rewrite <- !app_assoc. cbn [app].
  change (a :: l1 ++ b :: l2 ++ [a]) with ((a :: l1) ++ b :: (l2 ++ [a])).
  change (b :: l2 ++ a :: l1 ++ [b]) with ((b :: l2) ++ a :: (l1 ++ [b])).
  rewrite (path_app (a :: l1) (l2 ++ [a]) b).
  rewrite (path_app (b :: l2) (l1 ++ [b]) a). cbn [app]. ring.
Qed.

Lemma closedPath_rev (l : ring) : closedPath (rev l) == - closedPath l.
Proof.
  destruct l as [|p r]; [simpl; ring|].
  change (rev (p :: r)) with (rev r ++ [p]).
  rewrite closedPath_app_comm.
  unfold closedPath. cbn [app].
  rewrite <- path_rev.
  change (rev (p :: r ++ [p])) with (rev (r ++ [p]) ++ [p]).
  rewrite rev_app_distr. reflexivity.
Qed.

Lemma closedPath_rotate (k : nat) (l : ring) :
  closedPath (rotate k l) == closedPath l.
Proof.
  unfold rotate. rewrite closedPath_app_comm.
  now rewrite firstn_skipn.
Qed.

Lemma shoelaceArea_of_sum (l1 l2 : ring) :
  Qabs (shoelaceSum l1) == Qabs (shoelaceSum l2) ->
  shoelaceArea l1 == shoelaceArea l2.
Proof. unfold shoelaceArea. intros ->. reflexivity. Qed.

(** In exact arithmetic the area is the same for the reversed ring and for
    the ring started at any other vertex. *)
Lemma shoelaceArea_rational_rev (points : ring) :
  shoelaceArea (rev points) == shoelaceArea points.
Proof.
  apply shoelaceArea_of_sum.
  rewrite !shoelaceSum_closedPath, closedPath_rev. apply Qabs_opp.
Qed.

Lemma shoelaceArea_rational_rotate (k : nat) (points : ring) :
  shoelaceArea (rotate k points) == shoelaceArea points.
Proof.
  apply shoelaceArea_of_sum.
  now rewrite !shoelaceSum_closedPath, closedPath_rotate.
Qed.

(* ================================================================= *)
(** ** Loops *)

Lemma forEach_ext {A S R : Type} (l : list A) (b1 b2 : A -> S -> flow S R) :
  (forall a s, In a l -> b1 a s = b2 a s) ->
  forall s, forEach l b1 s = forEach l b2 s.
Proof.
  induction l as [|x l IH]; intros H s; simpl.
  - reflexivity.
  - rewrite (H x s (or_introl eq_refl)).
    destruct (b2 x s); [|reflexivity].
    apply IH. intros a s' Ha. apply H. now right.
Qed.

Lemma forEach_app {A S R : Type} (l1 l2 : list A)
  (body : A -> S -> flow S R) (s : S) :
  forEach (l1 ++ l2) body s
  = match forEach l1 body s with
    | Next s' => forEach l2 body s'
    | Exit r => Exit r
    end.
Proof.
  revert s. induction l1 as [|x l1 IH]; intro s; simpl.
  - reflexivity.
  - destruct (body x s); [apply IH | reflexivity].
Qed.

Lemma forEach_map {A B S R : Type} (h : A -> B) (l : list A)
  (body : B -> S -> flow S R) (s : S) :
  forEach l (fun a => body (h a)) s = forEach (map h l) body s.
Proof.
  revert s. induction l as [|x l IH]; intro s; simpl.
  - reflexivity.
  - destruct (body (h x) s); [apply IH | reflexivity].
Qed.

Lemma forEach_nested {A B S R : Type} (f : A -> list B) (l : list A)
  (body : B -> S -> flow S R) (s : S) :
  forEach l (fun a => forEach (f a) body) s = forEach (flat_map f l) body s.
Proof.
  revert s. induction l as [|x l IH]; intro s; simpl.
  - reflexivity.
  - rewrite forEach_app. destruct (forEach (f x) body s);
      [apply IH | reflexivity].
Qed.

(* ================================================================= *)
(** ** Chord search: the enumeration *)

Lemma findOptimalSplit_linear (polygon : ring) (targetArea : Q) (steps : nat)
  (tolerance : Q) :
  findOptimalSplit polygon targetArea steps tolerance
  = match forEach (candidates (length polygon) steps)
            (tryChord polygon targetArea steps tolerance) (None, None) with
    | Next (bestSplit, _) => bestSplit
    | Exit split => Some split
    end.
Proof.
  unfold findOptimalSplit, candidates.
  set (body := tryChord polygon targetArea steps tolerance).
  set (n := length polygon). set (fr := seq 1 (steps - 1)).
  rewrite <- forEach_nested.
  erewrite forEach_ext; [reflexivity|].
  intros i s _. cbv beta.
  rewrite <- forEach_nested.
  apply forEach_ext. intros j st _.
  destruct (skipPair n i j); [reflexivity|].
  rewrite <- forEach_nested.
  apply forEach_ext. intros si st' _.
  apply forEach_map.
Qed.

Lemma skipPair_false (n i j : nat) :
  skipPair n i j = false
  <-> (2 <= Z.abs (Z.of_nat i - Z.of_nat j) <= Z.of_nat n - 2)%Z.
Proof.
  unfold skipPair. rewrite orb_false_iff, Z.ltb_ge, Z.gtb_ltb, Z.ltb_ge.
  lia.
Qed.

Lemma in_candidates (n steps i j si sj : nat) :
  In (i, j, si, sj) (candidates n steps)
  <-> (i < n)%nat /\ (j < n)%nat
      /\ (2 <= Z.abs (Z.of_nat i - Z.of_nat j) <= Z.of_nat n - 2)%Z
      /\ (1 <= si < steps)%nat /\ (1 <= sj < steps)%nat.
Proof.
  unfold candidates. rewrite in_flat_map. split.
  - intros (i' & Hi & H). rewrite in_flat_map in H.
    destruct H as (j' & Hj & H).
    destruct (skipPair n i' j') eqn:E; [destruct H|].
    rewrite in_flat_map in H. destruct H as (si' & Hsi & H).
    rewrite in_map_iff in H. destruct H as (sj' & Heq & Hsj).
    inversion Heq; subst. apply skipPair_false in E.
    rewrite in_seq in Hi, Hj, Hsi, Hsj. repeat split; try lia.
  - intros (Hi & Hj & Hd & Hsi & Hsj).
    exists i. split; [apply in_seq; lia|].
    rewrite in_flat_map. exists j. split; [apply in_seq; lia|].
    apply skipPair_false in Hd. rewrite Hd.
    rewrite in_flat_map. exists si. split; [apply in_seq; lia|].
    rewrite in_map_iff. exists sj. split; [reflexivity | apply in_seq; lia].
Qed.

Lemma StronglySorted_app {A : Type} (R : A -> A -> Prop) (l1 l2 : list A) :
  StronglySorted R l1 -> StronglySorted R l2 ->
  (forall x y, In x l1 -> In y l2 -> R x y) ->
  StronglySorted R (l1 ++ l2).
Proof.
  induction l1 as [|a l1 IH]; intros H1 H2 H12; simpl; [assumption|].
  inversion H1 as [|? ? Hs Hf]; subst. constructor.
  - apply IH; [assumption | assumption |].
    intros x y Hx Hy. apply H12; [now right | assumption].
  - rewrite Forall_forall in *. intros y Hy.
    apply in_app_or in Hy. destruct Hy as [Hy|Hy].
    + now apply Hf.
    + apply H12; [now left | assumption].
Qed.

Lemma StronglySorted_flat_map {A B : Type} (RA : A -> A -> Prop)
  (RB : B -> B -> Prop) (f : A -> list B) (l : list A) :
  StronglySorted RA l ->
  (forall a, In a l -> StronglySorted RB (f a)) ->
  (forall a a' x y, RA a a' -> In x (f a) -> In y (f a') -> RB x y) ->
  StronglySorted RB (flat_map f l).
Proof.
  intros Hl Hin Hcross. induction Hl as [|a l Hs IH Hf]; simpl.
  - constructor.
  - apply StronglySorted_app.
    + apply Hin. now left.
    + apply IH. intros a' Ha'. apply Hin. now right.
    + intros x y Hx Hy. apply in_flat_map in Hy.
      destruct Hy as (a' & Ha' & Hy).
      rewrite Forall_forall in Hf. eapply Hcross; eauto.
Qed.

Lemma StronglySorted_map {A B : Type} (RA : A -> A -> Prop)
  (RB : B -> B -> Prop) (h : A -> B) (l : list A) :
  StronglySorted RA l ->
  (forall a a', RA a a' -> RB (h a) (h a')) ->
  StronglySorted RB (map h l).
Proof.
  intros Hl Hm. induction Hl as [|a l Hs IH Hf]; simpl; constructor.
  - assumption.
  - rewrite Forall_forall in *. intros y Hy.
    apply in_map_iff in Hy. destruct Hy as (a' & <- & Ha'). auto.
Qed.

Lemma StronglySorted_seq (start len : nat) :
  StronglySorted lt (seq start len).
Proof.
  revert start. induction len as [|len IH]; intro start; simpl; constructor.
  - apply IH.
  - rewrite Forall_forall. intros y Hy. apply in_seq in Hy. lia.
Qed.

Lemma candidates_sorted (n steps : nat) :
  StronglySorted chord_lt (candidates n steps).
Proof.
  unfold candidates.
  apply (StronglySorted_flat_map lt); [apply StronglySorted_seq | |].
  - intros i _.
    apply (StronglySorted_flat_map lt); [apply StronglySorted_seq | |].
    + intros j _. destruct (skipPair n i j); [constructor|].
      apply (StronglySorted_flat_map lt); [apply StronglySorted_seq | |].
      * intros si _.
        apply (StronglySorted_map lt); [apply StronglySorted_seq|].
        intros sj sj' H. simpl. lia.
      * intros si si' x y H Hx Hy.
        apply in_map_iff in Hx. destruct Hx as (sj & <- & _).
        apply in_map_iff in Hy. destruct Hy as (sj' & <- & _).
        simpl. lia.
    + intros j j' x y H Hx Hy.
      destruct (skipPair n i j); [destruct Hx|].
      destruct (skipPair n i j'); [destruct Hy|].
      apply in_flat_map in Hx. destruct Hx as (si & _ & Hx).
      apply in_map_iff in Hx. destruct Hx as (sj & <- & _).
      apply in_flat_map in Hy. destruct Hy as (si' & _ & Hy).
      apply in_map_iff in Hy. destruct Hy as (sj' & <- & _).
      simpl. lia.
  - intros i i' x y H Hx Hy.
    apply in_flat_map in Hx. destruct Hx as (j & _ & Hx).
    destruct (skipPair n i j); [destruct Hx|].
    apply in_flat_map in Hx. destruct Hx as (si & _ & Hx).
    apply in_map_iff in Hx. destruct Hx as (sj & <- & _).
    apply in_flat_map in Hy. destruct Hy as (j' & _ & Hy).
    destruct (skipPair n i' j'); [destruct Hy|].
    apply in_flat_map in Hy. destruct Hy as (si' & _ & Hy).
    apply in_map_iff in Hy. destruct Hy as (sj' & <- & _).
    simpl. lia.
Qed.

(* ================================================================= *)
(** ** Chord search over [Q]: first hit, else running best *)

Lemma bestOf_step (polygon : ring) (targetArea : Q) (steps : nat)
  (seen : list chord) (st : searchState) (c : chord) :
  bestOf polygon targetArea steps seen st ->
  bestOf polygon targetArea steps (seen ++ [c])
    (if belowBest (chordDiff polygon targetArea steps c) (snd st)
     then (Some (chordSplit polygon steps c),
           Some (chordDiff polygon targetArea steps c))
     else st).
Proof.
  destruct st as [[split|] [diff|]]; simpl; intro H; try contradiction.
  - destruct H as (c0 & Hin & -> & -> & Hmin).
    destruct (Qltb _ _) eqn:E; simpl.
    + apply Qltb_lt in E. exists c. repeat split.
      * apply in_or_app. right. now left.
      * intros c' Hc'. apply in_app_or in Hc'. destruct Hc' as [Hc'|[<-|[]]].
        -- apply Qlt_le_weak. eapply Qlt_le_trans; [exact E | now apply Hmin].
        -- apply Qle_refl.
    + apply Qltb_ge in E. exists c0. repeat split.
      * apply in_or_app. now left.
      * intros c' Hc'. apply in_app_or in Hc'. destruct Hc' as [Hc'|[<-|[]]].
        -- now apply Hmin.
        -- exact E.
  - subst seen. exists c. repeat split.
    + now left.
    + intros c' [<-|[]]. apply Qle_refl.
Qed.

Lemma search_run (polygon : ring) (targetArea : Q) (steps : nat)
  (tolerance : Q) (cs seen : list chord) (st : searchState) :
  bestOf polygon targetArea steps seen st ->
  match forEach cs (tryChord polygon targetArea steps tolerance) st with
  | Exit split =>
      exists c,
        find (withinTolerance polygon targetArea steps tolerance) cs = Some c
        /\ split = chordSplit polygon steps c
  | Next st' =>
      find (withinTolerance polygon targetArea steps tolerance) cs = None
      /\ bestOf polygon targetArea steps (seen ++ cs) st'
  end.
Proof.
  revert seen st. induction cs as [|c cs IH]; intros seen st H.
  - simpl. rewrite app_nil_r. auto.
  - cbn [forEach find]. unfold tryChord at 1, withinTolerance at 1 3.
    destruct (Qltb (chordDiff polygon targetArea steps c)
                (tolerance * targetArea)).
    + exists c. auto.
    + apply (bestOf_step _ _ _ _ _ c) in H.
      specialize (IH _ _ H). rewrite <- app_assoc in IH. exact IH.
Qed.

(* ================================================================= *)
(** ** The vertex walk of [splitAtEdges] stops *)

Lemma mod_distance (n k stop : nat) :
  (k < n)%nat -> (stop < n)%nat ->
  ((stop + n - k) mod n
   = if (stop <? k)%nat then stop + n - k else stop - k)%nat.
Proof.
  intros Hk Hs. destruct (Nat.ltb_spec stop k).
  - apply Nat.mod_small. lia.
  - replace (stop + n - k)%nat with (stop - k + 1 * n)%nat by lia.
    rewrite Nat.Div0.mod_add. apply Nat.mod_small. lia.
Qed.

Lemma mod_succ (n k : nat) :
  (k < n)%nat ->
  ((k + 1) mod n = if (k + 1 =? n)%nat then 0 else k + 1)%nat.
Proof.
  intro Hk. destruct (Nat.eqb_spec (k + 1) n) as [E|E].
  - rewrite E. apply Nat.Div0.mod_same.
  - apply Nat.mod_small. lia.
Qed.

Lemma walk_steps (polygon : ring) (stop d : nat) :
  forall bound k,
    (k < length polygon)%nat -> (stop < length polygon)%nat ->
    ((stop + length polygon - k) mod length polygon = d)%nat ->
    (d <= bound)%nat ->
    walk polygon bound k stop
    = map (fun e => at_ polygon ((k + e) mod length polygon)) (seq 0 d).
Proof.
  remember (length polygon) as n eqn:Hn.
  induction d as [|d IH]; intros bound k Hk Hs Hd Hb;
    rewrite mod_distance in Hd by assumption.
  - assert (k = stop) by (destruct (Nat.ltb_spec stop k); lia). subst k.
    destruct bound; simpl; [reflexivity|]. now rewrite Nat.eqb_refl.
  - destruct bound as [|bound]; [lia|].
    assert (Hne : k <> stop) by (destruct (Nat.ltb_spec stop k); lia).
    cbn [walk]. apply Nat.eqb_neq in Hne. rewrite Hne, <- Hn.
    rewrite <- cons_seq. cbn [map]. rewrite Nat.add_0_r, (Nat.mod_small k n) by lia.
    f_equal. rewrite <- seq_shift, map_map.
    assert (Hk' : ((k + 1) mod n < n)%nat)
      by (apply Nat.mod_upper_bound; lia).
    rewrite (IH bound ((k + 1) mod n)%nat Hk' Hs).
    + apply map_ext. intro e. f_equal.
      rewrite Nat.Div0.add_mod_idemp_l. f_equal. lia.
    + rewrite mod_distance by assumption. rewrite mod_succ by assumption.
      apply Nat.eqb_neq in Hne.
      destruct (Nat.eqb_spec (k + 1) n), (Nat.ltb_spec stop k);
        try destruct (Nat.ltb_spec stop 0);
        try destruct (Nat.ltb_spec stop (k + 1)); lia.
    + lia.
Qed.

(** X23: for indices in range the walk makes [(stop - k) mod n] steps,
    fewer than the [n] its bound allows: a larger bound gives the same
    vertices. *)
Lemma walk_bound_enough (polygon : ring) (k stop extra : nat) :
  (k < length polygon)%nat -> (stop < length polygon)%nat ->
  walk polygon (length polygon + extra) k stop
  = walk polygon (length polygon) k stop.
Proof.
  intros Hk Hs.
  assert (Hd : ((stop + length polygon - k) mod length polygon
                < length polygon)%nat) by (apply Nat.mod_upper_bound; lia).
  rewrite (walk_steps polygon stop _ _ k Hk Hs eq_refl) by lia.
  rewrite (walk_steps polygon stop _ _ k Hk Hs eq_refl) by lia.
  reflexivity.
Qed.

(* ================================================================= *)
(** ** The drivers: validation *)

Lemma count_accepted (count : Q) :
  0 < count -> isInteger count = true ->
  Qle_bool count 0 || negb (isInteger count) = false.
Proof.
  intros Hpos Hint. rewrite Hint. simpl. rewrite orb_false_r.
  apply Qle_bool_false. exact Hpos.
Qed.

Lemma count_rejected (count : Q) :
  count <= 0 \/ isInteger count = false ->
  Qle_bool count 0 || negb (isInteger count) = true.
Proof.
  intros [H|H].
  - apply Qle_bool_iff in H. now rewrite H.
  - rewrite H. apply orb_true_r.
Qed.

Lemma peelRuns_count (count : Q) :
  0 < count -> isInteger count = true ->
  num (S (peelRuns count)) == count.
Proof.
  intros Hpos Hint. unfold isInteger in Hint. apply Qeq_bool_iff in Hint.
  assert (H1 : (1 <= Qfloor count)%Z).
  { rewrite Hint in Hpos. rewrite <- (Zlt_Qlt 0) in Hpos. lia. }
  unfold num, peelRuns. rewrite Hint at 2. apply inject_Z_injective. lia.
Qed.


(* ================================================================= *)
(** ** The peel loop of [splitEqualArea] *)

Lemma peel_loop (count : Q) (len : nat) :
  forall i parts current,
    match forEach (seq i len) (peelStep count) (parts, current) with
    | Next (parts', current') =>
        parts' ++ [current'] = parts ++ peel count len i current
        /\ length parts' = (length parts + len)%nat
    | Exit (parts', current') =>
        parts' ++ [current'] = parts ++ peel count len i current
        /\ (length parts <= length parts' < length parts + len)%nat
        /\ findOptimalSplit current'
             (shoelaceArea current'
              / (count - num (i + (length parts' - length parts))))
             defaultSteps defaultTolerance = None
    end.
Proof.
  induction len as [|len IH]; intros i parts current.
  - simpl. split; [reflexivity | lia].
  - cbn [seq forEach peel]. unfold peelStep at 1.
    destruct (findOptimalSplit current _ _ _) as [[piece rest]|] eqn:E.
    + specialize (IH (S i) (parts ++ [piece]) rest).
      destruct (forEach _ _ _) as [[parts' current']|[parts' current']];
        rewrite length_app in IH; simpl in IH; rewrite <- app_assoc in IH.
      * destruct IH as [-> IH]. split; [reflexivity | lia].
      * destruct IH as (-> & Hlt & Hnone). repeat split; [lia | lia |].
        replace (i + (length parts' - length parts))%nat
          with (S i + (length parts' - (length parts + 1)))%nat by lia.
        exact Hnone.
    + repeat split; [lia | lia |].
      now rewrite Nat.sub_diag, Nat.add_0_r.
Qed.

Lemma splitEqualArea_run (coords : ring) (count : Q) :
  0 < count -> isInteger count = true ->
  exists parts current,
    splitEqualArea (Arr coords) count = Returned (parts ++ [current])
    /\ parts ++ [current] = peel count (peelRuns count) 0 coords
    /\ match forEach (seq 0 (peelRuns count)) (peelStep count) ([], coords)
       with
       | Next _ => num (length (parts ++ [current])) == count
       | Exit _ =>
           num (length (parts ++ [current])) < count
           /\ findOptimalSplit current
                (shoelaceArea current / (count - num (length parts)))
                defaultSteps defaultTolerance = None
       end.
Proof.
  intros Hpos Hint. unfold splitEqualArea.
  rewrite (count_accepted count Hpos Hint).
  pose proof (peel_loop count (peelRuns count) 0 [] coords) as H.
  pose proof (peelRuns_count count Hpos Hint) as Hc.
  destruct (forEach _ _ _) as [[parts current]|[parts current]];
    exists parts, current; simpl in H.
  - destruct H as [H Hlen]. repeat split; [exact H|].
    rewrite length_app, Hlen, Nat.add_1_r. exact Hc.
  - destruct H as (H & Hlen & Hnone). repeat split; [exact H | |].
    + rewrite <- Hc. unfold num. rewrite <- Zlt_Qlt.
      rewrite length_app. simpl in *. lia.
    + now rewrite Nat.sub_0_r in Hnone.
Qed.

Lemma splitEqualArea_at_most_count (coords : ring) (count : Q) :
  0 < count -> isInteger count = true ->
  exists parts,
    splitEqualArea (Arr coords) count = Returned parts
    /\ (1 <= length parts)%nat /\ num (length parts) <= count.
Proof.
  intros Hpos Hint.
  destruct (splitEqualArea_run coords count Hpos Hint)
    as (parts & current & Hret & _ & Hrun).
  exists (parts ++ [current]). repeat split; [exact Hret | |].
  - rewrite length_app. simpl. lia.
  - destruct (forEach _ _ _).
    + rewrite Hrun. apply Qle_refl.
    + apply Qlt_le_weak, Hrun.
Qed.

(** C6: once validation has passed, [splitEqualArea] returns; the pieces are
    those of the peel recursion, where run [i] targets
    [area(current) / (count - i)]; there are between 1 and [count] of them,
    exactly [count] when no run was cut short, fewer when the chord search
    gave no cut; and the ring that remained is the last piece. *)
Theorem splitEqualArea_peels (coords : ring) (count : Q) :
  0 < count -> isInteger count = true ->
  exists parts current,
    splitEqualArea (Arr coords) count = Returned (parts ++ [current])
    /\ parts ++ [current] = peel count (peelRuns count) 0 coords
    /\ (1 <= length (parts ++ [current]))%nat
    /\ num (length (parts ++ [current])) <= count
    /\ match forEach (seq 0 (peelRuns count)) (peelStep count) ([], coords)
       with
       | Next _ => num (length (parts ++ [current])) == count
       | Exit _ =>
           num (length (parts ++ [current])) < count
           /\ findOptimalSplit current
                (shoelaceArea current / (count - num (length parts)))
                defaultSteps defaultTolerance = None
       end.
Proof.
  intros Hpos Hint.
  destruct (splitEqualArea_run coords count Hpos Hint)
    as (parts & current & Hret & Hpeel & Hrun).
  exists parts, current. repeat split; try assumption.
  - rewrite length_app. simpl. lia.
  - destruct (forEach _ _ _).
    + rewrite Hrun. apply Qle_refl.
    + apply Qlt_le_weak, Hrun.
Qed.

Lemma splitEqualArea_peels_witness :
  0 < 2 /\ isInteger 2 = true
  /\ exists parts current,
       splitEqualArea (Arr square) 2 = Returned (parts ++ [current])
       /\ num (length (parts ++ [current])) <= 2.
Proof.
  split; [reflexivity|]. split; [reflexivity|].
  destruct (splitEqualArea_peels square 2 eq_refl eq_refl)
    as (parts & current & Hret & _ & _ & Hle & _).
  exists parts, current. split; assumption.
Defined.



(** C5: each driver answers a [coords] that is not an array with the error
    "Coordinates must be an array", whatever the other argument; the count
    drivers answer a count that is not positive or not an integer with
    "Count must be positive integer", and the area drivers an area that is
    not positive with "Area must be positive".  The answer is the error
    alone: no ring is returned. *)
Theorem drivers_validate_first :
  (forall count,
      splitEqualArea NotArr count = Thrown "Coordinates must be an array"
      /\ splitHorizontalEqualArea NotArr count
         = Thrown "Coordinates must be an array")
  /\ (forall area,
        splitByArea NotArr area = Thrown "Coordinates must be an array"
        /\ splitHorizontalByArea NotArr area
           = Thrown "Coordinates must be an array")
  /\ (forall coords count,
        count <= 0 \/ isInteger count = false ->
        splitEqualArea (Arr coords) count
        = Thrown "Count must be positive integer"
        /\ splitHorizontalEqualArea (Arr coords) count
           = Thrown "Count must be positive integer")
  /\ (forall coords area,
        area <= 0 ->
        splitByArea (Arr coords) area = Thrown "Area must be positive"
        /\ splitHorizontalByArea (Arr coords) area
           = Thrown "Area must be positive").
Proof.
  repeat split.
  - unfold splitEqualArea. now rewrite count_rejected.
  - unfold splitHorizontalEqualArea. now rewrite count_rejected.
  - unfold splitByArea. apply Qle_bool_iff in H. now rewrite H.
  - unfold splitHorizontalByArea. apply Qle_bool_iff in H. now rewrite H.
Qed.

(** C10 (amended): with [count = 1] the loops do not run.  [splitEqualArea]
    returns the input ring as its only piece; so does
    [splitHorizontalEqualArea] for a ring with at least one point, and for
    the empty ring it returns no piece at all. *)
Theorem split_count_one (coords : ring) :
  splitEqualArea (Arr coords) 1 = Returned [coords]
  /\ splitHorizontalEqualArea (Arr coords) 1
     = Returned (match coords with [] => [] | _ :: _ => [coords] end).
Proof.
  split.
  - reflexivity.
  - destruct coords; reflexivity.
Qed.

(** C10 as stated fails on the empty ring: [splitHorizontalEqualArea]
    returns the empty list, not a list of one ring. *)
Lemma splitHorizontalEqualArea_one_empty :
  splitHorizontalEqualArea (Arr []) 1 = Returned []
  /\ ~ (exists piece,
          splitHorizontalEqualArea (Arr []) 1 = Returned [piece]
          /\ ring_eq piece []).
Proof.
  split; [reflexivity|].
  intros (piece & H & _). discriminate H.
Qed.

(* ================================================================= *)
(** ** Band search *)

Lemma midSlice_at (remaining : ring) (currentY maxY targetArea : Q)
  (k : nat) (low high : Q) :
  bisectInterval remaining currentY maxY targetArea k = (low, high) ->
  midSlice remaining currentY maxY targetArea k
  = clipHorizontal remaining currentY ((low + high) / 2).
Proof. unfold midSlice. now intros ->. Qed.

Lemma bisect_run (remaining : ring) (currentY maxY targetArea : Q)
  (len : nat) :
  forall start,
    forEach (seq start len) (bisectStep remaining currentY targetArea)
      (bisectInterval remaining currentY maxY targetArea start)
    = match find (accepts remaining currentY maxY targetArea)
              (seq start len) with
      | Some k => Exit (midSlice remaining currentY maxY targetArea k)
      | None =>
          Next (bisectInterval remaining currentY maxY targetArea
                  (start + len))
      end.
Proof.
  induction len as [|len IH]; intro start.
  - simpl. now rewrite Nat.add_0_r.
  - cbn [seq forEach find].
    destruct (bisectInterval remaining currentY maxY targetArea start)
      as [low high] eqn:E.
    unfold accepts at 1. rewrite (midSlice_at _ _ _ _ _ _ _ E).
    unfold bisectStep at 1.
    destruct (Qltb (Qabs _) _);
      [now rewrite (midSlice_at _ _ _ _ _ _ _ E)|].
    replace (start + S len)%nat with (S start + len)%nat by lia.
    rewrite <- IH. cbn [bisectInterval]. rewrite E.
    destruct (Qltb _ targetArea); reflexivity.
Qed.

Lemma bandSearch_first_accepted (remaining : ring)
  (currentY maxY targetArea : Q) :
  bandSearch remaining currentY maxY targetArea
  = match find (accepts remaining currentY maxY targetArea) (seq 0 20) with
    | Some k => Some (midSlice remaining currentY maxY targetArea k)
    | None => None
    end.
Proof.
  unfold bandSearch.
  change (currentY, maxY)
    with (bisectInterval remaining currentY maxY targetArea 0).
  rewrite bisect_run.
  destruct (find _ _); reflexivity.
Qed.


(* ================================================================= *)
(** ** Horizontal clipper *)

Lemma clipHorizontal_nil (yMin yMax : Q) : clipHorizontal [] yMin yMax = [].
Proof. reflexivity. Qed.

Lemma fold_left_app_flat_map {A B : Type} (f : A -> list B) (l : list A)
  (acc : list B) :
  fold_left (fun acc a => acc ++ f a) l acc = acc ++ flat_map f l.
Proof.
  revert acc. induction l as [|x l IH]; intro acc; simpl.
  - now rewrite app_nil_r.
  - now rewrite IH, app_assoc.
Qed.

Lemma crosses_strictlyAcross (y1 y2 y : Q) :
  crosses y1 y2 y = true <-> strictlyAcross y1 y2 y.
Proof.
  unfold crosses, strictlyAcross.
  rewrite orb_true_iff, !andb_true_iff, !Qltb_lt. tauto.
Qed.


Lemma closeRing_cases (clipped : ring) :
  match clipped with
  | [] => closeRing clipped = []
  | first :: _ =>
      (point_eq first (List.last clipped first) -> closeRing clipped = clipped)
      /\ (~ point_eq first (List.last clipped first) ->
          closeRing clipped = clipped ++ [first])
  end.
Proof.
  destruct clipped as [|first rest]; [reflexivity|].
  unfold closeRing, point_eq.
  set (last := List.last (first :: rest) first).
  destruct (Qneqb (fst first) (fst last)) eqn:Ex;
    destruct (Qneqb (snd first) (snd last)) eqn:Ey; simpl;
    try apply Qneqb_false in Ex; try apply Qneqb_false in Ey;
    split; intro H; try reflexivity.
  - destruct H as [Hx _]. apply Qneqb_false in Hx. congruence.
  - destruct H as [Hx _]. apply Qneqb_false in Hx. congruence.
  - destruct H as [_ Hy]. apply Qneqb_false in Hy. congruence.
  - exfalso. apply H. split; assumption.
Qed.

Lemma closeRing_idempotent (clipped : ring) :
  closeRing (closeRing clipped) = closeRing clipped.
Proof.
  destruct clipped as [|first rest]; [reflexivity|].
  set (l := first :: rest).
  assert (H : closeRing l
              = if Qneqb (fst first) (fst (List.last l first))
                   || Qneqb (snd first) (snd (List.last l first))
                then l ++ [first] else l) by reflexivity.
  destruct (_ || _) eqn:E in H.
  - rewrite H. unfold closeRing, l. cbn [app].
    change (first :: rest ++ [first]) with ((first :: rest) ++ [first]).
    rewrite last_last, !Qneqb_refl. reflexivity.
  - now rewrite !H.
Qed.




(* ================================================================= *)
(** ** Horizontal driver on the square *)

(** C2: on the square of side 10 with [count = 2] the first band is the
    lower half, closed at [(0,0)]; [currentY] is then read from that last
    point and stays 0 although the band reaches up to 5; the ring that
    remains is the whole square again, and the two bands overlap. *)
Theorem splitHorizontalEqualArea_square_bands_overlap :
  exists band1 band2 currentY,
    splitHorizontalEqualArea (Arr square) 2 = Returned [band1; band2]
    /\ ring_eq band1 [(0, 0); (10, 0); (10, 5); (0, 5); (0, 0)]
    /\ ring_eq band2 [(0, 0); (10, 0); (10, 10); (0, 10); (0, 0)]
    /\ bandStep (maxOf (map snd square)) (shoelaceArea square / 2) 2 0
         ([], minOf (map snd square), square)
       = Next ([band1], currentY, band2)
    /\ currentY == 0
    /\ maxOf (map snd band1) == 5
    /\ minOf (map snd band1) == 0
    /\ minOf (map snd band2) == 0.
Proof.
  eexists _, _, _. split; [vm_compute; reflexivity|].
  split; [repeat constructor|]. split; [repeat constructor|].
  split; [vm_compute; reflexivity|].
  repeat split.
Qed.

(* ================================================================= *)
(** ** The two pieces of [splitAtEdges] *)

Lemma mod_below_double (n a : nat) :
  (a < 2 * n)%nat ->
  (a mod n = if (a <? n)%nat then a else a - n)%nat.
Proof.
  intro H. destruct (Nat.ltb_spec a n).
  - apply Nat.mod_small. assumption.
  - replace a with (a - n + 1 * n)%nat at 1 by lia.
    rewrite Nat.Div0.mod_add. apply Nat.mod_small. lia.
Qed.

Lemma cyc_length (l : ring) (s d : nat) : length (cyc l s d) = d.
Proof. unfold cyc. now rewrite length_map, length_seq. Qed.

Lemma seq_from (a d : nat) : seq a d = map (fun e => a + e)%nat (seq 0 d).
Proof.
  revert a. induction d as [|d IH]; intro a; [reflexivity|].
  cbn [seq map]. rewrite Nat.add_0_r. f_equal.
  rewrite (IH (S a)), (IH 1%nat), map_map. apply map_ext. intro e. lia.
Qed.

Lemma cyc_app (l : ring) (s d1 d2 : nat) :
  cyc l s (d1 + d2) = cyc l s d1 ++ cyc l ((s + d1) mod length l) d2.
Proof.
  unfold cyc. rewrite seq_app, map_app. f_equal.
  rewrite (seq_from (0 + d1)), map_map. apply map_ext. intro e.
  rewrite Nat.Div0.add_mod_idemp_l. f_equal. f_equal. lia.
Qed.

Lemma nth_rotate (l : ring) (s e : nat) (d : point) :
  (s < length l)%nat -> (e < length l)%nat ->
  nth e (rotate s l) d = nth ((s + e) mod length l) l d.
Proof.
  intros Hs He. unfold rotate. rewrite (Nat.mod_small s) by assumption.
  rewrite mod_below_double by lia.
  destruct (Nat.ltb_spec (s + e) (length l)).
  - rewrite app_nth1 by (rewrite length_skipn; lia).
    now rewrite nth_skipn.
  - rewrite app_nth2 by (rewrite length_skipn; lia).
    rewrite length_skipn, nth_firstn.
    replace (e - (length l - s))%nat with (s + e - length l)%nat by lia.
    destruct (Nat.ltb_spec (s + e - length l) s); [reflexivity | lia].
Qed.

Lemma rotate_length (s : nat) (l : ring) : length (rotate s l) = length l.
Proof.
  unfold rotate. rewrite length_app, length_skipn, length_firstn.
  destruct l as [|p l]; [simpl; lia|].
  assert (s mod length (p :: l) < length (p :: l))%nat
    by (apply Nat.mod_upper_bound; discriminate).
  lia.
Qed.

Lemma cyc_full (l : ring) (s : nat) :
  (s < length l)%nat -> cyc l s (length l) = rotate s l.
Proof.
  intro Hs. apply (nth_ext _ _ (0, 0) (0, 0)).
  - now rewrite cyc_length, rotate_length.
  - intros e He. rewrite cyc_length in He.
    rewrite nth_rotate by assumption. unfold cyc.
    rewrite (nth_indep _ _ (at_ l ((s + 0) mod length l)))
      by (rewrite length_map, length_seq; assumption).
    rewrite (map_nth (fun e => at_ l ((s + e) mod length l)) (seq 0 (length l)) 0%nat).
    rewrite seq_nth by assumption. reflexivity.
Qed.

Lemma walk_cyc (l : ring) (k stop : nat) :
  (k < length l)%nat -> (stop < length l)%nat ->
  walk l (length l) k stop
  = cyc l k ((stop + length l - k) mod length l).
Proof.
  intros Hk Hs. apply walk_steps; try assumption; try reflexivity.
  apply Nat.lt_le_incl, Nat.mod_upper_bound. lia.
Qed.

Ltac split_mod :=
  repeat match goal with
    | |- context [(?a mod ?n)%nat] =>
        rewrite (mod_below_double n a) by lia
    | |- context [(?a <? ?b)%nat] => destruct (Nat.ltb_spec a b)
    | |- context [(?a =? ?b)%nat] => destruct (Nat.eqb_spec a b)
    end.

Lemma edge_distance (n i j : nat) :
  (i < n)%nat -> (j < n)%nat -> i <> j ->
  let s1 := ((i + 1) mod n)%nat in
  let s2 := ((j + 1) mod n)%nat in
  let d := ((j + n - i) mod n)%nat in
  (s1 < n)%nat /\ (s2 < n)%nat
  /\ ((s2 + n - s1) mod n = d)%nat
  /\ ((s1 + n - s2) mod n = n - d)%nat
  /\ (1 <= d <= n - 1)%nat
  /\ ((s1 + d) mod n = s2)%nat
  /\ d = (if (j <? i)%nat then j + n - i else j - i)%nat
  /\ ((s1 + (d - 1)) mod n = j)%nat
  /\ ((s2 + (n - d - 1)) mod n = i)%nat.
Proof.
  intros Hi Hj Hij s1 s2 d. subst s1 s2 d.
  rewrite (mod_below_double n (i + 1)), (mod_below_double n (j + 1)),
    (mod_below_double n (j + n - i)) by lia.
  destruct (Nat.ltb_spec (i + 1) n), (Nat.ltb_spec (j + 1) n),
    (Nat.ltb_spec (j + n - i) n), (Nat.ltb_spec j i);
    try lia; repeat split; try lia; split_mod; lia.
Qed.

Lemma splitAtEdges_pieces (l : ring) (i j : nat) (ti tj : Q) :
  (i < length l)%nat -> (j < length l)%nat -> i <> j ->
  let n := length l in
  let s1 := ((i + 1) mod n)%nat in
  let s2 := ((j + 1) mod n)%nat in
  let d := ((j + n - i) mod n)%nat in
  let pi := interpolate (at_ l i) (at_ l s1) ti in
  let pj := interpolate (at_ l j) (at_ l s2) tj in
  splitAtEdges l i j ti tj
  = (pi :: cyc l s1 d ++ [pj], pj :: cyc l s2 (n - d) ++ [pi])
  /\ cyc l s1 d ++ cyc l s2 (n - d) = rotate s1 l
  /\ (1 <= d <= n - 1)%nat.
Proof.
  intros Hi Hj Hij n s1 s2 d pi pj.
  destruct (edge_distance n i j Hi Hj Hij)
    as (H1 & H2 & Hd1 & Hd2 & Hd & Hs & _).
  fold s1 s2 d in H1, H2, Hd1, Hd2, Hd, Hs.
  split; [|split; [|exact Hd]].
  - unfold splitAtEdges. fold n s1 s2 pi pj.
    unfold n at 1 2. rewrite !walk_cyc by assumption.
    fold n. rewrite Hd1, Hd2. reflexivity.
  - rewrite <- Hs. unfold n. rewrite <- cyc_app. fold n.
    replace (d + (n - d))%nat with n by lia.
    apply cyc_full. exact H1.
Qed.

(* ================================================================= *)
(** ** What the chord search returns *)

Lemma findOptimalSplit_chord (polygon : ring) (targetArea : Q) (steps : nat)
  (tolerance : Q) (split : ring * ring) :
  findOptimalSplit polygon targetArea steps tolerance = Some split ->
  exists c, In c (candidates (length polygon) steps)
            /\ split = chordSplit polygon steps c.
Proof.
  rewrite findOptimalSplit_linear.
  pose proof (search_run polygon targetArea steps tolerance
                (candidates (length polygon) steps) [] (None, None) eq_refl)
    as H.
  destruct (forEach _ _ _) as [[best diff]|split'].
  - destruct H as [_ H]. intros ->. simpl in H.
    destruct diff as [diff|]; [|contradiction].
    destruct H as (c & Hin & -> & _). exists c. auto.
  - destruct H as (c & Hfind & ->). intro E. inversion E; subst.
    exists c. split; [|reflexivity]. now apply find_some in Hfind.
Qed.

Lemma findOptimalSplit_none (polygon : ring) (targetArea : Q) (steps : nat)
  (tolerance : Q) :
  findOptimalSplit polygon targetArea steps tolerance = None
  <-> candidates (length polygon) steps = [].
Proof.
  rewrite findOptimalSplit_linear. split.
  - pose proof (search_run polygon targetArea steps tolerance
                  (candidates (length polygon) steps) [] (None, None) eq_refl)
      as H.
    destruct (forEach _ _ _) as [[best diff]|split']; [|discriminate].
    destruct H as [_ H]. intros ->. simpl in H.
    destruct diff; [contradiction | exact H].
  - intros ->. reflexivity.
Qed.

Lemma candidates_nil (n steps : nat) :
  candidates n steps = [] <-> (n < 4 \/ steps < 2)%nat.
Proof.
  split.
  - intro E.
    destruct (Nat.lt_ge_cases n 4) as [|Hn]; [now left|].
    destruct (Nat.lt_ge_cases steps 2) as [|Hs]; [now right|].
    assert (H : In (0, 2, 1, 1)%nat (candidates n steps))
      by (apply in_candidates; lia).
    rewrite E in H. destruct H.
  - intro H. destruct (candidates n steps) as [|[[[i j] si] sj] cs] eqn:E;
      [reflexivity|].
    assert (Hin : In (i, j, si, sj) (candidates n steps))
      by (rewrite E; now left).
    apply in_candidates in Hin. lia.
Qed.

Lemma chordSplit_lengths (polygon : ring) (steps : nat) (c : chord) :
  In c (candidates (length polygon) steps) ->
  (4 <= length (fst (chordSplit polygon steps c)) <= length polygon)%nat
  /\ (4 <= length (snd (chordSplit polygon steps c)) <= length polygon)%nat
  /\ (length (fst (chordSplit polygon steps c))
      + length (snd (chordSplit polygon steps c))
      = length polygon + 4)%nat.
Proof.
  destruct c as [[[i j] si] sj]. intro Hin. apply in_candidates in Hin.
  destruct Hin as (Hi & Hj & Hd & _).
  assert (Hij : i <> j) by lia.
  unfold chordSplit.
  destruct (splitAtEdges_pieces polygon i j (num si / num steps)
              (num sj / num steps) Hi Hj Hij) as (-> & _ & _).
  destruct (edge_distance (length polygon) i j Hi Hj Hij)
    as (_ & _ & _ & _ & _ & _ & Ed & _).
  cbn [fst snd length]. rewrite !length_app, !cyc_length. cbn [length].
  rewrite Ed. destruct (Nat.ltb_spec j i); lia.
Qed.

(* ================================================================= *)
(** ** The pieces of [splitEqualArea] *)

Lemma peel_short (count : Q) (runs i : nat) (current : ring) :
  (length current < 4)%nat -> peel count runs i current = [current].
Proof.
  intro H. destruct runs as [|runs]; [reflexivity|]. cbn [peel].
  replace (findOptimalSplit current _ defaultSteps defaultTolerance)
    with (@None (ring * ring)); [reflexivity|].
  symmetry. apply findOptimalSplit_none, candidates_nil. now left.
Qed.

Lemma peel_full (count : Q) (runs : nat) :
  forall i current,
    (4 <= length current)%nat ->
    length (peel count runs i current) = S runs
    /\ Forall (fun r => 4 <= length r <= length current)%nat
         (peel count runs i current).
Proof.
  induction runs as [|runs IH]; intros i current H.
  - simpl. split; [reflexivity|]. constructor; [lia | constructor].
  - cbn [peel].
    destruct (findOptimalSplit current _ defaultSteps defaultTolerance)
      as [[piece rest]|] eqn:E.
    + apply findOptimalSplit_chord in E. destruct E as (c & Hin & E).
      pose proof (chordSplit_lengths current defaultSteps c Hin) as L.
      rewrite <- E in L. cbn [fst snd] in L.
      destruct (IH (S i) rest) as [IH1 IH2]; [lia|].
      split; [simpl; now rewrite IH1|].
      constructor; [lia|].
      eapply Forall_impl; [|exact IH2]. simpl. intros r Hr. lia.
    + apply findOptimalSplit_none, candidates_nil in E.
      unfold defaultSteps in E. lia.
Qed.

Lemma splitEqualArea_peel (coords : ring) (count : Q) :
  0 < count -> isInteger count = true ->
  splitEqualArea (Arr coords) count
  = Returned (peel count (peelRuns count) 0 coords).
Proof.
  intros Hpos Hint.
  destruct (splitEqualArea_run coords count Hpos Hint)
    as (parts & current & -> & -> & _).
  reflexivity.
Qed.

(** X3: a split returned by the chord search has two pieces of at least 4
    and at most [n] points each, [n + 4] points together. *)
Theorem findOptimalSplit_pieces (polygon : ring) (targetArea : Q)
  (steps : nat) (tolerance : Q) (poly1 poly2 : ring) :
  findOptimalSplit polygon targetArea steps tolerance = Some (poly1, poly2) ->
  (4 <= length poly1 <= length polygon)%nat
  /\ (4 <= length poly2 <= length polygon)%nat
  /\ (length poly1 + length poly2 = length polygon + 4)%nat.
Proof.
  intro E. apply findOptimalSplit_chord in E. destruct E as (c & Hin & E).
  pose proof (chordSplit_lengths polygon steps c Hin) as L.
  rewrite <- E in L. cbn [fst snd] in L. exact L.
Qed.

Lemma findOptimalSplit_pieces_witness :
  exists poly1 poly2,
    findOptimalSplit square 50 defaultSteps defaultTolerance
    = Some (poly1, poly2)
    /\ (4 <= length poly1 <= length square)%nat
    /\ (length poly1 + length poly2 = length square + 4)%nat.
Proof.
  destruct (findOptimalSplit square 50 defaultSteps defaultTolerance)
    as [[poly1 poly2]|] eqn:E; [|vm_compute in E; discriminate E].
  exists poly1, poly2. split; [reflexivity|].
  destruct (findOptimalSplit_pieces square 50 defaultSteps defaultTolerance
              poly1 poly2 E) as (L1 & _ & L3).
  split; assumption.
Defined.

(** X4: once validation has passed, [splitEqualArea] returns the ring alone
    when it has fewer than 4 points; for a ring of at least 4 points it
    returns at most [count] pieces, each with at least 4 and at most as many
    points as the ring. *)
Theorem splitEqualArea_piece_sizes (coords : ring) (count : Q) :
  0 < count -> isInteger count = true ->
  exists parts,
    splitEqualArea (Arr coords) count = Returned parts
    /\ ((length coords < 4)%nat -> parts = [coords])
    /\ ((4 <= length coords)%nat ->
        num (length parts) <= count
        /\ Forall (fun r => 4 <= length r <= length coords)%nat parts).
Proof.
  intros Hpos Hint.
  exists (peel count (peelRuns count) 0 coords).
  split; [now apply splitEqualArea_peel|]. split; intro Hlen.
  - now apply peel_short.
  - destruct (peel_full count (peelRuns count) 0 coords Hlen) as [L F].
    split; [|exact F].
    rewrite L, (peelRuns_count count Hpos Hint). apply Qle_refl.
Qed.

Lemma splitEqualArea_piece_sizes_witness :
  0 < 3 /\ isInteger 3 = true
  /\ exists parts,
       splitEqualArea (Arr square) 3 = Returned parts
       /\ Forall (fun r => 4 <= length r <= length square)%nat parts.
Proof.
  split; [reflexivity|]. split; [reflexivity|].
  destruct (splitEqualArea_piece_sizes square 3 eq_refl eq_refl)
    as (parts & Hret & _ & H).
  exists parts. split; [exact Hret|].
  apply H. simpl. lia.
Defined.

(* ================================================================= *)
(** ** Closing a ring *)

Lemma closeRing_closed (l : ring) : closed (closeRing l).
Proof.
  destruct l as [|p r]; [exact I|].
  pose proof (closeRing_cases (p :: r)) as [Hsame Hdiff].
  unfold closeRing.
  destruct (Qneqb (fst p) (fst (last (p :: r) p))) eqn:Ex;
    [|destruct (Qneqb (snd p) (snd (last (p :: r) p))) eqn:Ey].
  - cbn [orb]. unfold closed. cbn [app].
    change (p :: r ++ [p]) with ((p :: r) ++ [p]).
    rewrite last_last. split; reflexivity.
  - cbn [orb]. unfold closed. cbn [app].
    change (p :: r ++ [p]) with ((p :: r) ++ [p]).
    rewrite last_last. split; reflexivity.
  - cbn [orb]. unfold closed. apply Qneqb_false in Ex, Ey. split; assumption.
Qed.

Lemma closeRing_in (l : ring) (p : point) :
  In p (closeRing l) <-> In p l.
Proof.
  destruct l as [|q r]; [reflexivity|].
  unfold closeRing. destruct (_ || _); [|reflexivity].
  rewrite in_app_iff. split.
  - intros [H|[<-|[]]]; [exact H | now left].
  - intro H. now left.
Qed.

(* ================================================================= *)
(** ** The points [clipHorizontal] outputs *)

Lemma clipHorizontal_flat (polygon : ring) (yMin yMax : Q) :
  clipHorizontal polygon yMin yMax
  = closeRing
      (flat_map
         (fun i => clipEdge (at_ polygon i)
                     (at_ polygon ((i + 1) mod length polygon)) yMin yMax)
         (seq 0 (length polygon))).
Proof.
  unfold clipHorizontal.
  now rewrite (fold_left_app_flat_map
                 (fun i => clipEdge (at_ polygon i)
                             (at_ polygon ((i + 1) mod length polygon))
                             yMin yMax)).
Qed.





Lemma map_at_seq (l : ring) : map (at_ l) (seq 0 (length l)) = l.
Proof.
  apply (nth_ext _ _ (0, 0) (0, 0)).
  - now rewrite length_map, length_seq.
  - intros e He. rewrite length_map, length_seq in He.
    rewrite (nth_indep _ _ (at_ l 0))
      by (rewrite length_map, length_seq; assumption).
    rewrite (map_nth (at_ l) (seq 0 (length l)) 0%nat).
    now rewrite seq_nth.
Qed.

Lemma flat_map_single {A B : Type} (f : A -> B) (g : A -> list B)
  (l : list A) :
  (forall a, In a l -> g a = [f a]) -> flat_map g l = map f l.
Proof.
  induction l as [|x l IH]; intro H; simpl; [reflexivity|].
  rewrite (H x (or_introl eq_refl)), IH; [reflexivity|].
  intros a Ha. apply H. now right.
Qed.

Lemma at_in (l : ring) (i : nat) : (i < length l)%nat -> In (at_ l i) l.
Proof. intro H. now apply nth_In. Qed.

Lemma crosses_none (y1 y2 y : Q) :
  (y <= y1 /\ y <= y2) \/ (y1 <= y /\ y2 <= y) -> crosses y1 y2 y = false.
Proof.
  intro H. apply not_true_iff_false. rewrite crosses_strictlyAcross.
  unfold strictlyAcross. intros [[A B]|[A B]]; destruct H as [[C D]|[C D]];
    lra.
Qed.

Lemma clipHorizontal_inside (polygon : ring) (yMin yMax : Q) :
  withinBand yMin yMax polygon ->
  clipHorizontal polygon yMin yMax = closeRing polygon.
Proof.
  intro H. rewrite clipHorizontal_flat. f_equal.
  transitivity (map (at_ polygon) (seq 0 (length polygon)));
    [|apply map_at_seq].
  apply flat_map_single. intros i Hi. apply in_seq in Hi.
  unfold withinBand in H. rewrite Forall_forall in H.
  assert (Ha : yMin <= snd (at_ polygon i) /\ snd (at_ polygon i) <= yMax)
    by (apply H, at_in; lia).
  assert (Hb : yMin <= snd (at_ polygon ((i + 1) mod length polygon))
               /\ snd (at_ polygon ((i + 1) mod length polygon)) <= yMax).
  { apply H, at_in, Nat.mod_upper_bound. lia. }
  unfold clipEdge.
  rewrite !crosses_none by tauto.
  destruct Ha as [A1 A2]. apply Qle_bool_iff in A1, A2.
  now rewrite A1, A2.
Qed.

Lemma clipHorizontal_closed (polygon : ring) (yMin yMax : Q) :
  closed (clipHorizontal polygon yMin yMax).
Proof. rewrite clipHorizontal_flat. apply closeRing_closed. Qed.



(** X10: a ring whose points all lie within [yMin, yMax] is only closed by
    [clipHorizontal]: no point is dropped or inserted. *)
Theorem clipHorizontal_ring_inside_band (polygon : ring) (yMin yMax : Q) :
  withinBand yMin yMax polygon ->
  clipHorizontal polygon yMin yMax = closeRing polygon.
Proof.
  intro H. apply (clipHorizontal_inside polygon yMin yMax H).
Qed.

Lemma clipHorizontal_ring_inside_band_witness :
  withinBand 0 10 square
  /\ clipHorizontal square 0 10 = closeRing square.
Proof.
  assert (H : withinBand 0 10 square).
  { repeat constructor; discriminate. }
  split; [exact H|].
  exact (clipHorizontal_ring_inside_band square 0 10 H).
Defined.

(* ================================================================= *)
(** ** The horizontal peel loop *)

Lemma fold_min_spec (l : list Q) :
  forall y0,
    (fold_left Qmin l y0 = y0 \/ In (fold_left Qmin l y0) l)
    /\ fold_left Qmin l y0 <= y0
    /\ Forall (fun y => fold_left Qmin l y0 <= y) l.
Proof.
  induction l as [|y l IH]; intro y0; simpl.
  - split; [now left|]. split; [apply Qle_refl | constructor].
  - destruct (IH (Qmin y0 y)) as (Hin & Hle & Hall).
    pose proof (Q.le_min_l y0 y) as L1. pose proof (Q.le_min_r y0 y) as L2.
    split; [|split].
    + destruct Hin as [->|Hin]; [|now right; right].
      unfold Qmin, GenericMinMax.gmin. destruct (y0 ?= y); auto.
    + lra.
    + constructor; [lra | exact Hall].
Qed.

Lemma fold_max_spec (l : list Q) :
  forall y0,
    (fold_left Qmax l y0 = y0 \/ In (fold_left Qmax l y0) l)
    /\ y0 <= fold_left Qmax l y0
    /\ Forall (fun y => y <= fold_left Qmax l y0) l.
Proof.
  induction l as [|y l IH]; intro y0; simpl.
  - split; [now left|]. split; [apply Qle_refl | constructor].
  - destruct (IH (Qmax y0 y)) as (Hin & Hle & Hall).
    pose proof (Q.le_max_l y0 y) as L1. pose proof (Q.le_max_r y0 y) as L2.
    split; [|split].
    + destruct Hin as [->|Hin]; [|now right; right].
      unfold Qmax, GenericMinMax.gmax. destruct (y0 ?= y); auto.
    + lra.
    + constructor; [lra | exact Hall].
Qed.

Lemma minOf_maxOf_spec (coords : ring) :
  coords <> [] ->
  let ys := map snd coords in
  (exists p, In p coords /\ snd p = minOf ys)
  /\ withinBand (minOf ys) (maxOf ys) coords
  /\ minOf ys <= maxOf ys.
Proof.
  intro Hne. destruct coords as [|p r]; [contradiction|]. cbn zeta.
  cbn [map minOf maxOf].
  destruct (fold_min_spec (map snd r) (snd p)) as (Hin & Hle & Hall).
  destruct (fold_max_spec (map snd r) (snd p)) as (_ & Hge & Hall').
  split; [|split].
  - destruct Hin as [E|Hin].
    + exists p. split; [now left | now rewrite E].
    + apply in_map_iff in Hin. destruct Hin as (q & E & Hq).
      exists q. split; [now right | exact E].
  - constructor; [split; assumption|].
    rewrite Forall_map in Hall, Hall'. apply Forall_forall. intros q Hq.
    rewrite Forall_forall in Hall, Hall'. split; auto.
  - lra.
Qed.


Lemma bisectInterval_range (remaining : ring) (currentY maxY targetArea : Q)
  (k : nat) :
  currentY <= maxY ->
  currentY <= fst (bisectInterval remaining currentY maxY targetArea k)
  /\ fst (bisectInterval remaining currentY maxY targetArea k)
     <= snd (bisectInterval remaining currentY maxY targetArea k)
  /\ snd (bisectInterval remaining currentY maxY targetArea k) <= maxY.
Proof.
  intro Hle. induction k as [|k IH].
  - simpl. repeat split; try apply Qle_refl. exact Hle.
  - cbn [bisectInterval].
    destruct (bisectInterval remaining currentY maxY targetArea k)
      as [low high].
    cbn [fst snd] in IH. destruct IH as (H1 & H2 & H3).
    assert (Hm : low <= (low + high) / 2 /\ (low + high) / 2 <= high).
    { split.
      - apply Qle_shift_div_l; [reflexivity | lra].
      - apply Qle_shift_div_r; [reflexivity | lra]. }
    destruct (Qltb _ targetArea); cbn [fst snd]; repeat split; lra.
Qed.

Lemma share_between (w c : Q) : 0 <= w -> 1 <= c -> 0 <= w / c /\ w / c <= w.
Proof.
  intros Hw Hc. assert (Hc0 : 0 < c) by lra. split.
  - apply Qle_shift_div_l; [exact Hc0 | lra].
  - apply Qle_shift_div_r; [exact Hc0|].
    assert (H : 0 <= w * (c - 1)) by (apply Qmult_le_0_compat; lra).
    setoid_replace (w * c) with (w + w * (c - 1)) by ring. lra.
Qed.

Lemma chooseBand_clip (remaining : ring) (currentY maxY targetArea count : Q)
  (i : nat) :
  currentY <= maxY -> 1 <= count - num i ->
  exists top,
    currentY <= top /\ top <= maxY
    /\ chooseBand remaining currentY maxY targetArea count i
       = clipHorizontal remaining currentY top.
Proof.
  intros Hle Hc. unfold chooseBand. rewrite bandSearch_first_accepted.
  destruct (find _ _) as [k|].
  - pose proof (bisectInterval_range remaining currentY maxY targetArea k Hle)
      as (H1 & H2 & H3).
    unfold midSlice.
    destruct (bisectInterval remaining currentY maxY targetArea k)
      as [low high].
    cbn [fst snd] in *. exists ((low + high) / 2). repeat split.
    + apply Qle_shift_div_l; [reflexivity | lra].
    + apply Qle_shift_div_r; [reflexivity | lra].
  - destruct (share_between (maxY - currentY) (count - num i)) as [A B];
      [lra | exact Hc |].
    exists (currentY + (maxY - currentY) / (count - num i)).
    repeat split; lra.
Qed.





Lemma runs_left (count : Q) (idx : nat) :
  0 < count -> isInteger count = true ->
  (idx < peelRuns count)%nat -> 1 <= count - num idx.
Proof.
  intros Hpos Hint Hidx.
  rewrite <- (peelRuns_count count Hpos Hint).
  unfold num, Qminus. rewrite <- inject_Z_opp, <- inject_Z_plus.
  rewrite <- (Zle_Qle 1). lia.
Qed.


Lemma chooseBand_nil (currentY maxY targetArea count : Q) (i : nat) :
  chooseBand [] currentY maxY targetArea count i = [].
Proof.
  unfold chooseBand. rewrite bandSearch_first_accepted.
  destruct (find _ _) as [k|]; [|reflexivity].
  unfold midSlice. now destruct (bisectInterval _ _ _ _ _).
Qed.

Lemma peelRuns_zero (count : Q) :
  0 < count -> isInteger count = true ->
  (peelRuns count = 0%nat <-> count <= 1).
Proof.
  intros Hpos Hint. pose proof (peelRuns_count count Hpos Hint) as Hc.
  unfold num in Hc. split; intro H.
  - rewrite H in Hc. rewrite <- Hc. apply Qle_refl.
  - assert (H' : inject_Z (Z.of_nat (S (peelRuns count))) <= 1)
      by (eapply Qle_trans; [apply Qle_lteq; right; exact Hc | exact H]).
    rewrite <- (Zle_Qle _ 1) in H'. lia.
Qed.



Lemma horizontal_empty (count : Q) :
  0 < count -> isInteger count = true ->
  splitHorizontalEqualArea (Arr []) count
  = if Qle_bool count 1 then Returned []
    else Thrown "TypeError: cannot read properties of undefined".
Proof.
  intros Hpos Hint. unfold splitHorizontalEqualArea.
  rewrite (count_accepted count Hpos Hint). cbv zeta.
  pose proof (peelRuns_zero count Hpos Hint) as Hz.
  destruct (peelRuns count) as [|m].
  - assert (H : count <= 1) by now apply Hz.
    apply Qle_bool_iff in H. now rewrite H.
  - assert (H : Qle_bool count 1 = false).
    { apply not_true_iff_false. rewrite Qle_bool_iff. intro H.
      apply Hz in H. discriminate. }
    rewrite H. cbn [seq forEach]. unfold bandStep at 1.
    rewrite chooseBand_nil. reflexivity.
Qed.

(** X12: on the empty ring and a count that passed validation,
    [splitHorizontalEqualArea] returns the empty list for [count = 1] and
    raises the TypeError of reading the last point of an empty slice for
    every larger count. *)
Theorem splitHorizontalEqualArea_empty_ring (count : Q) :
  0 < count -> isInteger count = true ->
  splitHorizontalEqualArea (Arr []) count
  = if Qle_bool count 1 then Returned []
    else Thrown "TypeError: cannot read properties of undefined".
Proof. apply horizontal_empty. Qed.

Lemma splitHorizontalEqualArea_empty_ring_witness :
  0 < 3 /\ isInteger 3 = true
  /\ splitHorizontalEqualArea (Arr []) 3
     = Thrown "TypeError: cannot read properties of undefined".
Proof.
  split; [reflexivity|]. split; [reflexivity|].
  exact (splitHorizontalEqualArea_empty_ring 3 eq_refl eq_refl).
Defined.

(* ================================================================= *)
(** ** The horizontal peel loop on a ring that starts at its lowest point *)

Lemma closeRing_head (p : point) (l : ring) :
  exists l', closeRing (p :: l) = p :: l'.
Proof.
  unfold closeRing. destruct (_ || _).
  - exists (l ++ [p]). reflexivity.
  - exists l. reflexivity.
Qed.

Lemma clipHorizontal_head (p : point) (l : ring) (yMin yMax : Q) :
  yMin <= snd p -> snd p <= yMax ->
  exists l', clipHorizontal (p :: l) yMin yMax = p :: l'.
Proof.
  intros H1 H2. rewrite clipHorizontal_flat.
  cbn [length seq flat_map]. unfold clipEdge at 1.
  change (at_ (p :: l) 0) with p.
  apply Qle_bool_iff in H1, H2. rewrite H1, H2. cbn [andb app].
  apply closeRing_head.
Qed.

Lemma closed_last (p : point) (l : ring) :
  closed (p :: l) -> snd (last (p :: l) p) == snd p.
Proof. intros [_ H]. symmetry. exact H. Qed.

Lemma stuck_step (p0 : point) (r : ring) (lo hi targetArea count : Q)
  (i : nat) (parts : list ring) (currentY : Q) (remaining : ring) :
  snd p0 == lo -> lo <= hi -> withinBand lo hi (p0 :: r) ->
  remaining = p0 :: r \/ remaining = closeRing (p0 :: r) ->
  currentY == lo -> 1 <= count - num i ->
  exists band currentY',
    bandStep hi targetArea count i (parts, currentY, remaining)
    = Next (parts ++ [band], currentY', closeRing (p0 :: r))
    /\ currentY' == lo /\ In p0 band.
Proof.
  intros Hp0 Hle Hin Hrem Hcy Hc.
  assert (Hband : withinBand lo hi remaining).
  { destruct Hrem as [->| ->]; [exact Hin|].
    unfold withinBand in *. rewrite Forall_forall in *.
    intros q Hq. apply Hin. now apply closeRing_in. }
  assert (Hclose : closeRing remaining = closeRing (p0 :: r))
    by (destruct Hrem as [->| ->]; [reflexivity | apply closeRing_idempotent]).
  assert (Hhead : exists r', remaining = p0 :: r').
  { destruct Hrem as [->| ->]; [now exists r | apply closeRing_head]. }
  destruct Hhead as (r' & Er).
  assert (Hcy' : currentY <= hi) by lra.
  destruct (chooseBand_clip remaining currentY hi targetArea count i Hcy' Hc)
    as (top & Ht1 & Ht2 & Eband).
  unfold bandStep. rewrite Eband, Er.
  destruct (clipHorizontal_head p0 r' currentY top) as (b' & Eb); [lra | lra|].
  pose proof (clipHorizontal_closed (p0 :: r') currentY top) as Hcl.
  rewrite Eb in *. cbn [lastPoint].
  pose proof (closed_last p0 b' Hcl) as Hq.
  set (q := last (p0 :: b') p0) in *.
  exists (p0 :: b'), (snd q).
  rewrite <- Er.
  rewrite (clipHorizontal_inside remaining (snd q) hi).
  - rewrite Hclose. split; [reflexivity|]. split; [lra | now left].
  - unfold withinBand in *. eapply Forall_impl; [|exact Hband].
    simpl. intros x [A B]. split; lra.
Qed.

Lemma stuck_loop (p0 : point) (r : ring) (lo hi targetArea count : Q)
  (len : nat) :
  snd p0 == lo -> lo <= hi -> withinBand lo hi (p0 :: r) ->
  forall i parts currentY (remaining : ring),
    remaining = p0 :: r \/ remaining = closeRing (p0 :: r) ->
    currentY == lo ->
    (forall idx, (i <= idx < i + S len)%nat -> 1 <= count - num idx) ->
    exists bands currentY',
      forEach (seq i (S len)) (bandStep hi targetArea count)
        (parts, currentY, remaining)
      = Next (parts ++ bands, currentY', closeRing (p0 :: r))
      /\ length bands = S len
      /\ Forall (In p0) bands.
Proof.
  intros Hp0 Hle Hin. induction len as [|len IH];
    intros i parts currentY remaining Hrem Hcy Hidx;
    destruct (stuck_step p0 r lo hi targetArea count i parts currentY
                remaining Hp0 Hle Hin Hrem Hcy)
      as (band & cy & E & Hcy' & Hb); try (apply Hidx; lia).
  - exists [band], cy. cbn [seq forEach]. rewrite E.
    split; [reflexivity|]. split; [reflexivity|]. now constructor.
  - destruct (IH (S i) (parts ++ [band]) cy (closeRing (p0 :: r)))
      as (bands & cy' & E' & Hlen & Hall); [now right | exact Hcy' | |].
    { intros idx H. apply Hidx. lia. }
    exists (band :: bands), cy'.
    change (seq i (S (S len))) with (i :: seq (S i) (S len)).
    cbn [forEach]. rewrite E, E', <- app_assoc.
    split; [reflexivity|]. split; [simpl; lia|]. now constructor.
Qed.

(** X14: when the first point of the ring is one of its lowest points and
    the count that passed validation is above 1, [currentY] never leaves the
    least [y]: [splitHorizontalEqualArea] returns [count - 1] bands that all
    contain that first point, followed by the whole input ring, closed. *)
Theorem splitHorizontalEqualArea_low_start (p0 : point) (r : ring)
  (count : Q) :
  0 < count -> isInteger count = true -> 1 < count ->
  snd p0 = minOf (map snd (p0 :: r)) ->
  exists bands,
    splitHorizontalEqualArea (Arr (p0 :: r)) count
    = Returned (bands ++ [closeRing (p0 :: r)])
    /\ num (length bands) == count - 1
    /\ Forall (In p0) bands.
Proof.
  intros Hpos Hint H1 Hlow.
  set (coords := p0 :: r) in *.
  destruct (minOf_maxOf_spec coords) as (_ & Hin & Hle); [discriminate|].
  cbv zeta in Hin, Hle.
  pose proof (peelRuns_count count Hpos Hint) as Hc.
  destruct (peelRuns count) as [|m] eqn:Em.
  { apply (peelRuns_zero count Hpos Hint) in Em. lra. }
  destruct (stuck_loop p0 r (minOf (map snd coords)) (maxOf (map snd coords))
              (shoelaceArea coords / count) count m) with
    (i := 0%nat) (parts := @nil ring) (currentY := minOf (map snd coords))
    (remaining := coords)
    as (bands & cy & E & Hlen & Hall);
    try assumption; try reflexivity; try (now left).
  { now rewrite Hlow. }
  { intros idx H. apply runs_left; try assumption. rewrite Em. lia. }
  exists bands. unfold splitHorizontalEqualArea.
  rewrite (count_accepted count Hpos Hint). cbv zeta.
  fold coords. rewrite Em, E. cbn [app].
  unfold coords. destruct (closeRing_head p0 r) as (l' & El).
  rewrite El. split; [reflexivity|]. split; [|exact Hall].
  rewrite Hlen, <- Hc. unfold num.
  rewrite !Nat2Z.inj_succ. unfold Z.succ. rewrite !inject_Z_plus. ring.
Qed.

Lemma splitHorizontalEqualArea_low_start_witness :
  0 < 4 /\ isInteger 4 = true /\ 1 < 4
  /\ exists bands,
       splitHorizontalEqualArea (Arr square) 4
       = Returned (bands ++ [closeRing square])
       /\ Forall (In (0, 0)) bands.
Proof.
  split; [reflexivity|]. split; [reflexivity|]. split; [reflexivity|].
  destruct (splitHorizontalEqualArea_low_start (0, 0)
              [(10, 0); (10, 10); (0, 10)] 4 eq_refl eq_refl eq_refl eq_refl)
    as (bands & Hret & _ & Hall).
  exists bands. split; assumption.
Defined.

(* ================================================================= *)
(** ** The request handler *)





(** X16: [performSplit] hands each of the four modes to its driver, and
    for a mode the handler rejects it raises "Unknown split mode: <mode>";
    in mode "count", with a value that is a positive integer, it returns at
    least one ring and raises nothing. *)
Theorem performSplit_dispatch (arg : jsArg) (coords : ring) (mode : string)
  (value : Q) :
  performSplit arg "count" value = splitEqualArea arg value
  /\ performSplit arg "area" value = splitByArea arg value
  /\ performSplit arg "horizontal-count" value
     = splitHorizontalEqualArea arg value
  /\ performSplit arg "horizontal-area" value
     = splitHorizontalByArea arg value
  /\ (acceptedMode mode = false ->
      performSplit arg mode value
      = Thrown ("Unknown split mode: " ++ mode)%string)
  /\ (0 < value -> isInteger value = true ->
      exists parts,
        performSplit (Arr coords) "count" value = Returned parts
        /\ parts <> []).
Proof.
  repeat (split; [reflexivity|]). split.
  - intro H. unfold acceptedMode in H. cbn [existsb] in H.
    rewrite !orb_false_iff in H. destruct H as (H1 & H2 & H3 & H4 & _).
    unfold performSplit. now rewrite H1, H2, H3, H4.
  - intros Hpos Hint.
    destruct (splitEqualArea_at_most_count coords value Hpos Hint)
      as (parts & Hret & Hlen1 & _).
    exists parts. split; [exact Hret|]. intros ->. simpl in Hlen1. lia.
Qed.

(* ================================================================= *)
(** ** Horizontal grid slices *)

Lemma affine_between (x0 x1 t : Q) :
  0 <= t -> t <= 1 ->
  Qmin x0 x1 <= x0 + t * (x1 - x0) /\ x0 + t * (x1 - x0) <= Qmax x0 x1.
Proof.
  intros H0 H1.
  destruct (Qlt_le_dec x1 x0) as [Hd|Hd].
  - rewrite (Q.min_r x0 x1), (Q.max_l x0 x1) by lra.
    assert (A : 0 <= t * (x0 - x1)) by (apply Qmult_le_0_compat; lra).
    assert (B : 0 <= (1 - t) * (x0 - x1)) by (apply Qmult_le_0_compat; lra).
    split.
    + setoid_replace (x0 + t * (x1 - x0)) with (x1 + (1 - t) * (x0 - x1))
        by ring. lra.
    + setoid_replace (x0 + t * (x1 - x0)) with (x0 - t * (x0 - x1)) by ring.
      lra.
  - rewrite (Q.min_l x0 x1), (Q.max_r x0 x1) by lra.
    assert (A : 0 <= t * (x1 - x0)) by (apply Qmult_le_0_compat; lra).
    assert (B : 0 <= (1 - t) * (x1 - x0)) by (apply Qmult_le_0_compat; lra).
    split; [lra|].
    setoid_replace (x0 + t * (x1 - x0)) with (x1 - (1 - t) * (x1 - x0))
      by ring. lra.
Qed.

Lemma gridEdge_withinBand (a b : point) (yMin yMax : Q) :
  yMin <= yMax -> withinBand yMin yMax (gridEdge a b yMin yMax).
Proof.
  intro Hle. unfold gridEdge, withinBand.
  apply Forall_app. split.
  - destruct (segmentIntersectsY a b yMin); constructor; [|constructor].
    simpl. split; [apply Qle_refl | exact Hle].
  - apply Forall_app. split.
    + destruct (Qle_bool yMin (snd a) && Qle_bool (snd a) yMax) eqn:E;
        constructor; [|constructor].
      apply andb_true_iff in E. now rewrite !Qle_bool_iff in E.
    + destruct (segmentIntersectsY a b yMax); constructor; [|constructor].
      simpl. split; [exact Hle | apply Qle_refl].
Qed.

Lemma closeRing_length (l : ring) : (length l <= length (closeRing l))%nat.
Proof.
  destruct l as [|p r]; [apply Nat.le_refl|].
  unfold closeRing. destruct (_ || _); [|apply Nat.le_refl].
  rewrite length_app. simpl. lia.
Qed.

Lemma clipPolygonHorizontally_cases (points : ring) (yMin yMax : Q) :
  yMin <= yMax ->
  clipPolygonHorizontally points yMin yMax = []
  \/ ((4 <= length (clipPolygonHorizontally points yMin yMax))%nat
      /\ closed (clipPolygonHorizontally points yMin yMax)
      /\ withinBand yMin yMax (clipPolygonHorizontally points yMin yMax)).
Proof.
  intro Hle. unfold clipPolygonHorizontally.
  rewrite (fold_left_app_flat_map
             (fun i => gridEdge (at_ points i)
                         (at_ points ((i + 1) mod length points))
                         yMin yMax)).
  cbn [app].
  set (result := flat_map _ _).
  destruct (Nat.ltb_spec (length result) 4) as [|H4]; [now left|].
  right. split; [|split].
  - pose proof (closeRing_length result). lia.
  - apply closeRing_closed.
  - apply Forall_forall. intros p Hp.
    apply (proj1 (closeRing_in result p)) in Hp.
    unfold result in Hp. apply in_flat_map in Hp.
    destruct Hp as (i & _ & Hp).
    pose proof (gridEdge_withinBand (at_ points i)
                  (at_ points ((i + 1) mod length points)) yMin yMax Hle)
      as Hb.
    unfold withinBand in Hb. rewrite Forall_forall in Hb. now apply Hb.
Qed.

(** X18: for [yMin <= yMax], [clipPolygonHorizontally] returns either the
    empty ring or a closed ring of at least 4 points whose points all have
    their [y] within [yMin, yMax]; on the empty ring it returns the empty
    ring. *)
Theorem clipPolygonHorizontally_output (points : ring) (yMin yMax : Q) :
  yMin <= yMax ->
  (clipPolygonHorizontally points yMin yMax = []
   \/ ((4 <= length (clipPolygonHorizontally points yMin yMax))%nat
       /\ closed (clipPolygonHorizontally points yMin yMax)
       /\ withinBand yMin yMax (clipPolygonHorizontally points yMin yMax)))
  /\ clipPolygonHorizontally [] yMin yMax = [].
Proof.
  intro Hle. split; [now apply clipPolygonHorizontally_cases | reflexivity].
Qed.

Lemma clipPolygonHorizontally_output_witness :
  0 <= 5
  /\ (4 <= length (clipPolygonHorizontally square 0 5))%nat.
Proof.
  assert (H : 0 <= 5) by discriminate.
  split; [exact H|].
  destruct (proj1 (clipPolygonHorizontally_output square 0 5 H))
    as [E|(H4 & _)]; [vm_compute in E; discriminate E | exact H4].
Defined.




(* ================================================================= *)
(** ** Cut points *)

Lemma interpolate_box (p1 p2 : point) (t : Q) :
  0 <= t -> t <= 1 -> inBox p1 p2 (interpolate p1 p2 t).
Proof.
  intros H0 H1. unfold interpolate, inBox. cbn [fst snd].
  destruct (affine_between (fst p1) (fst p2) t H0 H1) as [A B].
  destruct (affine_between (snd p1) (snd p2) t H0 H1) as [C D].
  repeat split; assumption.
Qed.

Lemma candidate_fraction (steps k : nat) :
  (1 <= k < steps)%nat -> 0 < num k / num steps /\ num k / num steps < 1.
Proof.
  intro H. unfold num.
  assert (Hs : 0 < inject_Z (Z.of_nat steps))
    by (rewrite <- (Zlt_Qlt 0); lia).
  split.
  - apply Qlt_shift_div_l; [exact Hs|]. rewrite Qmult_0_l.
    rewrite <- (Zlt_Qlt 0). lia.
  - apply Qlt_shift_div_r; [exact Hs|]. rewrite Qmult_1_l.
    rewrite <- Zlt_Qlt. lia.
Qed.

(** X21: for two different edges, the first piece of [splitAtEdges] is the
    cut point on edge [i], the vertices [i+1 .. j] and the cut point on edge
    [j]; the second piece is the cut point on edge [j], the vertices
    [j+1 .. i] and the cut point on edge [i]; the two runs of vertices
    together are the ring started at vertex [i+1], so every vertex goes to
    exactly one piece. *)
Theorem splitAtEdges_partitions_vertices (polygon : ring) (i j : nat)
  (ti tj : Q) :
  (i < length polygon)%nat -> (j < length polygon)%nat -> i <> j ->
  let n := length polygon in
  let pi := interpolate (at_ polygon i) (at_ polygon ((i + 1) mod n)) ti in
  let pj := interpolate (at_ polygon j) (at_ polygon ((j + 1) mod n)) tj in
  exists run1 run2,
    splitAtEdges polygon i j ti tj
    = (pi :: run1 ++ [pj], pj :: run2 ++ [pi])
    /\ run1 = cyc polygon ((i + 1) mod n) ((j + n - i) mod n)
    /\ run2 = cyc polygon ((j + 1) mod n) ((i + n - j) mod n)
    /\ run1 ++ run2 = rotate (i + 1) polygon
    /\ run1 <> [] /\ run2 <> [].
Proof.
  intros Hi Hj Hij n pi pj.
  destruct (splitAtEdges_pieces polygon i j ti tj Hi Hj Hij)
    as (Hsplit & Hrot & Hd).
  destruct (edge_distance n i j Hi Hj Hij)
    as (H1 & _ & _ & _ & _ & _ & Ed & _).
  assert (Hij' : j <> i) by congruence.
  destruct (edge_distance n j i Hj Hi Hij')
    as (_ & _ & _ & _ & _ & _ & Ed' & _).
  cbv zeta in Hsplit, Hrot, Hd. fold n in Hsplit, Hrot, Hd.
  assert (E2 : ((i + n - j) mod n = n - (j + n - i) mod n)%nat).
  { rewrite Ed, Ed'.
    destruct (Nat.ltb_spec j i), (Nat.ltb_spec i j); lia. }
  exists (cyc polygon ((i + 1) mod n) ((j + n - i) mod n)),
    (cyc polygon ((j + 1) mod n) ((i + n - j) mod n)).
  rewrite E2. split; [exact Hsplit|].
  split; [reflexivity|]. split; [reflexivity|]. split.
  - rewrite Hrot. unfold rotate. fold n.
    now rewrite Nat.Div0.mod_mod.
  - split; intro E; apply (f_equal (@length point)) in E;
      rewrite cyc_length in E; simpl in E; lia.
Qed.

Lemma splitAtEdges_partitions_vertices_witness :
  (1 < length square)%nat /\ (3 < length square)%nat /\ 1%nat <> 3%nat
  /\ exists run1 run2,
       fst (splitAtEdges square 1 3 (1 # 2) (1 # 2))
       = interpolate (10, 0) (10, 10) (1 # 2) :: run1
           ++ [interpolate (0, 10) (0, 0) (1 # 2)]
       /\ run1 ++ run2 = rotate 2 square.
Proof.
  assert (H1 : (1 < length square)%nat) by (simpl; lia).
  assert (H3 : (3 < length square)%nat) by (simpl; lia).
  assert (Hne : 1%nat <> 3%nat) by discriminate.
  split; [exact H1|]. split; [exact H3|]. split; [exact Hne|].
  destruct (splitAtEdges_partitions_vertices square 1 3 (1 # 2) (1 # 2)
              H1 H3 Hne) as (run1 & run2 & Hs & _ & _ & Hrot & _).
  exists run1, run2. split; [|exact Hrot].
  rewrite Hs. reflexivity.
Defined.

(** X22: a split returned by the chord search is cut at two edges [i], [j]
    with [2 <= |i - j| <= n - 2], at fractions strictly between 0 and 1:
    each piece starts and ends with the two cut points, and each cut point
    lies inside the box spanned by the endpoints of its edge. *)
Theorem findOptimalSplit_chord_shape (polygon : ring) (targetArea : Q)
  (steps : nat) (tolerance : Q) (poly1 poly2 : ring) :
  findOptimalSplit polygon targetArea steps tolerance = Some (poly1, poly2) ->
  let n := length polygon in
  exists i j ti tj run1 run2,
    (i < n)%nat /\ (j < n)%nat
    /\ (2 <= Z.abs (Z.of_nat i - Z.of_nat j) <= Z.of_nat n - 2)%Z
    /\ 0 < ti /\ ti < 1 /\ 0 < tj /\ tj < 1
    /\ let pi :=
         interpolate (at_ polygon i) (at_ polygon ((i + 1) mod n)) ti in
       let pj :=
         interpolate (at_ polygon j) (at_ polygon ((j + 1) mod n)) tj in
       poly1 = pi :: run1 ++ [pj]
       /\ poly2 = pj :: run2 ++ [pi]
       /\ inBox (at_ polygon i) (at_ polygon ((i + 1) mod n)) pi
       /\ inBox (at_ polygon j) (at_ polygon ((j + 1) mod n)) pj.
Proof.
  intros E n. apply findOptimalSplit_chord in E.
  destruct E as ([[[i j] si] sj] & Hin & E).
  apply in_candidates in Hin. fold n in Hin.
  destruct Hin as (Hi & Hj & Hd & Hsi & Hsj).
  destruct (candidate_fraction steps si Hsi) as [A1 A2].
  destruct (candidate_fraction steps sj Hsj) as [B1 B2].
  assert (Hij : i <> j) by lia.
  destruct (splitAtEdges_pieces polygon i j (num si / num steps)
              (num sj / num steps) Hi Hj Hij) as (Hsplit & _ & _).
  cbv zeta in Hsplit. fold n in Hsplit.
  unfold chordSplit in E. rewrite Hsplit in E. inversion E; subst poly1 poly2.
  exists i, j, (num si / num steps), (num sj / num steps).
  eexists _, _.
  repeat (split; [assumption|]).
  cbv zeta. split; [reflexivity|]. split; [reflexivity|].
  split; apply interpolate_box; lra.
Qed.

Lemma findOptimalSplit_chord_shape_witness :
  exists poly1 poly2 pi pj run1 run2,
    findOptimalSplit square 50 defaultSteps defaultTolerance
    = Some (poly1, poly2)
    /\ poly1 = pi :: run1 ++ [pj]
    /\ poly2 = pj :: run2 ++ [pi].
Proof.
  destruct (findOptimalSplit square 50 defaultSteps defaultTolerance)
    as [[poly1 poly2]|] eqn:E; [|vm_compute in E; discriminate E].
  destruct (findOptimalSplit_chord_shape square 50 defaultSteps
              defaultTolerance poly1 poly2 E)
    as (i & j & ti & tj & run1 & run2 & _ & _ & _ & _ & _ & _ & _ & H).
  cbv zeta in H. destruct H as (H1 & H2 & _).
  eexists poly1, poly2, _, _, run1, run2.
  split; [reflexivity|]. split; [exact H1 | exact H2].
Defined.

Lemma walk_bound_enough_witness :
  (1 < length square)%nat /\ (3 < length square)%nat
  /\ walk square (length square + 5) 1 3 = walk square (length square) 1 3.
Proof.
  assert (H1 : (1 < length square)%nat) by (simpl; lia).
  assert (H3 : (3 < length square)%nat) by (simpl; lia).
  split; [exact H1|]. split; [exact H3|].
  exact (walk_bound_enough square 1 3 5 H1 H3).
Defined.

(* ================================================================= *)
(** ** Binary64: the order *)

Lemma SFcompare_irrefl (x : spec_float) : SFcompare x x <> Some Lt.
Proof.
  destruct x as [s|s| |s m e]; simpl; try discriminate.
  - destruct s; discriminate.
  - destruct s; rewrite Z.compare_refl, Pos.compare_cont_refl; discriminate.
Qed.

Lemma SFcompare_trans (x y z : spec_float) :
  SFcompare x y = Some Lt -> SFcompare y z = Some Lt ->
  SFcompare x z = Some Lt.
Proof.
  destruct x as [sx|sx| |sx mx ex], y as [sy|sy| |sy my ey],
    z as [sz|sz| |sz mz ez]; simpl; try discriminate;
    try destruct sx; try destruct sy; try destruct sz;
    try discriminate; try reflexivity.
  - change (Pos.compare_cont Eq mx my) with (mx ?= my)%positive.
    change (Pos.compare_cont Eq my mz) with (my ?= mz)%positive.
    change (Pos.compare_cont Eq mx mz) with (mx ?= mz)%positive.
    destruct (Z.compare_spec ex ey), (Z.compare_spec ey ez),
      (Z.compare_spec ex ez), (Pos.compare_spec mx my),
      (Pos.compare_spec my mz), (Pos.compare_spec mx mz);
      simpl; try discriminate; try reflexivity; intros; exfalso; lia.
  - change (Pos.compare_cont Eq mx my) with (mx ?= my)%positive.
    change (Pos.compare_cont Eq my mz) with (my ?= mz)%positive.
    change (Pos.compare_cont Eq mx mz) with (mx ?= mz)%positive.
    destruct (Z.compare_spec ex ey), (Z.compare_spec ey ez),
      (Z.compare_spec ex ez), (Pos.compare_spec mx my),
      (Pos.compare_spec my mz), (Pos.compare_spec mx mz);
      simpl; try discriminate; try reflexivity; intros; exfalso; lia.
Qed.

Lemma ltb_SFcompare (x y : float) :
  PrimFloat.ltb x y = true <-> SFcompare (Prim2SF x) (Prim2SF y) = Some Lt.
Proof.
  rewrite ltb_spec. unfold SFltb.
  destruct (SFcompare _ _) as [[| |]|]; split; congruence.
Qed.

Lemma binary64_ordered : Gen.ordered binary64.
Proof.
  split; simpl.
  - intro x. destruct (PrimFloat.ltb x x) eqn:E; [|reflexivity].
    apply ltb_SFcompare in E. now apply SFcompare_irrefl in E.
  - intros x y z Hxy Hyz. apply ltb_SFcompare in Hxy, Hyz.
    apply ltb_SFcompare. eapply SFcompare_trans; eassumption.
  - intros x y Hxy Hy. apply ltb_SFcompare in Hxy, Hy.
    apply ltb_SFcompare. eapply SFcompare_trans; eassumption.
Qed.

Lemma rational_ordered : Gen.ordered rational.
Proof.
  split; simpl.
  - intro x. destruct (Qltb x x) eqn:E; [|reflexivity].
    apply Qltb_lt in E. now apply Qlt_irrefl in E.
  - intros x y z Hxy Hyz. apply Qltb_lt in Hxy, Hyz.
    destruct (Qltb x z) eqn:E; [reflexivity|].
    apply Qltb_ge in E. exfalso.
    apply (Qlt_irrefl x). eapply Qlt_le_trans; [|exact E].
    eapply Qlt_trans; eassumption.
  - reflexivity.
Qed.

(* ================================================================= *)
(** ** The chord search in any arithmetic *)

(** At [rational] the code is the code over [Q]. *)
Lemma rational_shoelaceArea (points : ring) :
  Gen.shoelaceArea rational points = shoelaceArea points.
Proof. reflexivity. Qed.

Lemma rational_splitAtEdges (polygon : ring) (i j : nat) (ti tj : Q) :
  Gen.splitAtEdges rational polygon i j ti tj
  = splitAtEdges polygon i j ti tj.
Proof. reflexivity. Qed.

Lemma rational_findOptimalSplit (polygon : ring) (targetArea : Q)
  (steps : nat) (tolerance : Q) :
  Gen.findOptimalSplit rational polygon targetArea steps tolerance
  = findOptimalSplit polygon targetArea steps tolerance.
Proof. reflexivity. Qed.

Section Search.

Variable A : Gen.arith.
Variables (polygon : Gen.ring A) (targetArea : Gen.number A) (steps : nat)
  (tolerance : Gen.number A).

Lemma gen_findOptimalSplit_linear :
  Gen.findOptimalSplit A polygon targetArea steps tolerance
  = match forEach (candidates (length polygon) steps)
            (Gen.tryChord A polygon targetArea steps tolerance)
            (None, None) with
    | Next (bestSplit, _) => bestSplit
    | Exit split => Some split
    end.
Proof.
  unfold Gen.findOptimalSplit, candidates.
  set (body := Gen.tryChord A polygon targetArea steps tolerance).
  set (n := length polygon). set (fr := seq 1 (steps - 1)).
  rewrite <- forEach_nested.
  erewrite forEach_ext; [reflexivity|].
  intros i s _. cbv beta.
  rewrite <- forEach_nested.
  apply forEach_ext. intros j st _.
  destruct (skipPair n i j); [reflexivity|].
  rewrite <- forEach_nested.
  apply forEach_ext. intros si st' _.
  apply forEach_map.
Qed.

(** One run of the loop body, in terms of the chord's pieces and
    distance. *)
Lemma gen_tryChord_unfold (c : chord) (st : Gen.searchState A) :
  Gen.tryChord A polygon targetArea steps tolerance c st
  = let diff := distanceOf A polygon targetArea steps c in
    let below :=
      match snd st with
      | None => Gen.belowInfinity A diff
      | Some bestDiff => Gen.ltb A diff bestDiff
      end in
    if Gen.ltb A diff (Gen.mul A tolerance targetArea)
    then Exit (piecesOf A polygon steps c)
    else Next (if below
               then (Some (piecesOf A polygon steps c), Some diff)
               else st).
Proof.
  destruct c as [[[i j] si] sj]. reflexivity.
Qed.

Hypothesis order : Gen.ordered A.

Lemma leastOf_step (seen : list chord) (st : Gen.searchState A) (c : chord) :
  leastOf A polygon targetArea steps seen st ->
  leastOf A polygon targetArea steps (seen ++ [c])
    (if match snd st with
        | None =>
            Gen.belowInfinity A (distanceOf A polygon targetArea steps c)
        | Some bestDiff =>
            Gen.ltb A (distanceOf A polygon targetArea steps c) bestDiff
        end
     then (Some (piecesOf A polygon steps c),
           Some (distanceOf A polygon targetArea steps c))
     else st).
Proof.
  destruct order as [Hirr Htr Hcl].
  unfold leastOf.
  generalize (distanceOf A polygon targetArea steps). intro d.
  destruct st as [[split|] [diff|]]; simpl; intro H; try contradiction.
  - destruct H as (c0 & Hin & -> & -> & Hfin & Hmin).
    destruct (Gen.ltb A (d c) (d c0)) eqn:E; simpl.
    + exists c. repeat split.
      * apply in_or_app. right. now left.
      * eapply Hcl; eassumption.
      * intros c' Hc'. apply in_app_or in Hc'. destruct Hc' as [Hc'|[<-|[]]].
        -- destruct (Gen.ltb A (d c') (d c)) eqn:E'; [|reflexivity].
           rewrite <- (Hmin c' Hc'). symmetry. eapply Htr; eassumption.
        -- apply Hirr.
    + exists c0. repeat split.
      * apply in_or_app. now left.
      * exact Hfin.
      * intros c' Hc'. apply in_app_or in Hc'. destruct Hc' as [Hc'|[<-|[]]].
        -- now apply Hmin.
        -- exact E.
  - destruct (Gen.belowInfinity A (d c)) eqn:E; simpl.
    + exists c. repeat split.
      * apply in_or_app. right. now left.
      * exact E.
      * intros c' Hc'. apply in_app_or in Hc'. destruct Hc' as [Hc'|[<-|[]]].
        -- destruct (Gen.ltb A (d c') (d c)) eqn:E'; [|reflexivity].
           rewrite <- (H c' Hc'). symmetry. eapply Hcl; eassumption.
        -- apply Hirr.
    + intros c' Hc'. apply in_app_or in Hc'. destruct Hc' as [Hc'|[<-|[]]].
      * now apply H.
      * exact E.
Qed.

Lemma gen_search_run (cs seen : list chord) (st : Gen.searchState A) :
  leastOf A polygon targetArea steps seen st ->
  match forEach cs (Gen.tryChord A polygon targetArea steps tolerance) st with
  | Exit split =>
      exists c,
        find (fun c => Gen.ltb A (distanceOf A polygon targetArea steps c)
                         (Gen.mul A tolerance targetArea)) cs = Some c
        /\ split = piecesOf A polygon steps c
  | Next st' =>
      find (fun c => Gen.ltb A (distanceOf A polygon targetArea steps c)
                       (Gen.mul A tolerance targetArea)) cs = None
      /\ leastOf A polygon targetArea steps (seen ++ cs) st'
  end.
Proof.
  revert seen st. induction cs as [|c cs IH]; intros seen st H.
  - simpl. rewrite app_nil_r. auto.
  - cbn [forEach find]. rewrite gen_tryChord_unfold. cbv zeta.
    destruct (Gen.ltb A (distanceOf A polygon targetArea steps c)
                (Gen.mul A tolerance targetArea)).
    + exists c. auto.
    + apply (leastOf_step _ _ c) in H.
      specialize (IH _ _ H). rewrite <- app_assoc in IH. exact IH.
Qed.

End Search.

(** C1: the search visits exactly the chords [(i, j, si, sj)] with
    [2 <= |i - j| <= n - 2] and [1 <= si, sj <= steps - 1], in ascending
    order.  With [diff = |area(first piece) - target|] computed in the
    arithmetic at hand, it returns the pieces of the first chord with
    [diff < tolerance * target]; when there is none, it returns the pieces
    of a visited chord whose [diff] is below [Infinity] and that no visited
    chord's [diff] is below, and [null] exactly when no visited chord has a
    [diff] below [Infinity]. *)
Theorem findOptimalSplit_first_within_else_least (A : Gen.arith)
  (order : Gen.ordered A) (polygon : Gen.ring A) (targetArea : Gen.number A)
  (steps : nat) (tolerance : Gen.number A) :
  let n := length polygon in
  let cs := candidates n steps in
  let pieces := fun c : chord =>
    let '(i, j, si, sj) := c in
    Gen.splitAtEdges A polygon i j
      (Gen.div A (Gen.ofNat A si) (Gen.ofNat A steps))
      (Gen.div A (Gen.ofNat A sj) (Gen.ofNat A steps)) in
  let diff := fun c : chord =>
    Gen.abs A (Gen.sub A (Gen.shoelaceArea A (fst (pieces c))) targetArea) in
  let within := fun c : chord =>
    Gen.ltb A (diff c) (Gen.mul A tolerance targetArea) in
  (forall i j si sj,
      In (i, j, si, sj) cs
      <-> (i < n)%nat /\ (j < n)%nat
          /\ (2 <= Z.abs (Z.of_nat i - Z.of_nat j) <= Z.of_nat n - 2)%Z
          /\ (1 <= si < steps)%nat /\ (1 <= sj < steps)%nat)
  /\ StronglySorted chord_lt cs
  /\ match find within cs with
     | Some c =>
         Gen.findOptimalSplit A polygon targetArea steps tolerance
         = Some (pieces c)
     | None =>
         match Gen.findOptimalSplit A polygon targetArea steps tolerance with
         | Some split =>
             exists c, In c cs
               /\ split = pieces c
               /\ Gen.belowInfinity A (diff c) = true
               /\ forall c', In c' cs -> Gen.ltb A (diff c') (diff c) = false
         | None =>
             forall c, In c cs -> Gen.belowInfinity A (diff c) = false
         end
     end.
Proof.
  intros n cs pieces diff within. split; [|split].
  - intros. apply in_candidates.
  - apply candidates_sorted.
  - rewrite gen_findOptimalSplit_linear. fold n cs.
    assert (H0 : leastOf A polygon targetArea steps [] (None, None))
      by (intros c []).
    pose proof (gen_search_run A polygon targetArea steps tolerance order
                  cs [] (None, None) H0) as H.
    change (fun c => Gen.ltb A (distanceOf A polygon targetArea steps c)
                       (Gen.mul A tolerance targetArea)) with within in H.
    change (piecesOf A polygon steps) with pieces in H.
    destruct (forEach cs _ _) as [[[split|] [d|]]|split].
    + destruct H as (-> & c & Hin & -> & -> & Hfin & Hmin). exists c. auto.
    + destruct H as (_ & []).
    + destruct H as (_ & []).
    + destruct H as (-> & H). exact H.
    + destruct H as (c & -> & ->). reflexivity.
Qed.
(* ================================================================= *)
(** ** Binary64: signs, and differences that cancel *)

Lemma Prim2SF_zero : Prim2SF 0%float = S754_zero false.
Proof. reflexivity. Qed.

Lemma Prim2SF_two : Prim2SF 2%float = S754_finite false 4503599627370496 (-51).
Proof. reflexivity. Qed.

(** Rounding keeps the sign it is given. *)
Lemma binary_round_aux_cases (s : bool) (mx ex : Z) (lx : location) :
  binary_round_aux prec emax s mx ex lx = S754_zero s
  \/ binary_round_aux prec emax s mx ex lx = S754_infinity s
  \/ binary_round_aux prec emax s mx ex lx = S754_nan
  \/ exists m e, binary_round_aux prec emax s mx ex lx = S754_finite s m e.
Proof.
  unfold binary_round_aux.
  destruct (shr_fexp prec emax mx ex lx) as [mrs' e'].
  destruct (shr_fexp prec emax _ e' loc_Exact) as [mrs'' e''].
  destruct (shr_m mrs'') as [|m|m]; auto.
  destruct (e'' <=? emax - prec)%Z; eauto 6.
Qed.

Lemma binary_round_aux_opp (mx ex : Z) (lx : location) :
  binary_round_aux prec emax true mx ex lx
  = SFopp (binary_round_aux prec emax false mx ex lx).
Proof.
  unfold binary_round_aux.
  destruct (shr_fexp prec emax mx ex lx) as [mrs' e'].
  destruct (shr_fexp prec emax _ e' loc_Exact) as [mrs'' e''].
  destruct (shr_m mrs'') as [|m|m]; try reflexivity.
  destruct (e'' <=? emax - prec)%Z; reflexivity.
Qed.

Lemma binary_round_opp (m : positive) (e : Z) :
  binary_round prec emax true m e = SFopp (binary_round prec emax false m e).
Proof.
  unfold binary_round.
  destruct (shl_align m e _) as [mz ez]. apply binary_round_aux_opp.
Qed.

Lemma binary_normalize_opp (m e : Z) :
  binary_normalize prec emax (- m) e false
  = match m with
    | Z0 => S754_zero false
    | _ => SFopp (binary_normalize prec emax m e false)
    end.
Proof.
  destruct m as [|p|p]; simpl; [reflexivity| |].
  - apply binary_round_opp.
  - rewrite binary_round_opp.
    destruct (binary_round prec emax false p e) as [[]|[]| |[] ? ?];
      reflexivity.
Qed.

Lemma is_finite_SF (x : float) : is_finite x = SFfinite (Prim2SF x).
Proof.
  unfold is_finite, is_nan, is_infinity.
  rewrite !FloatAxioms.eqb_spec, abs_spec.
  change (Prim2SF infinity) with (S754_infinity false).
  unfold SFeqb.
  destruct (Prim2SF x) as [s|s| |s m e]; simpl; try reflexivity.
  - destruct s; reflexivity.
  - destruct s; rewrite Z.compare_refl, Pos.compare_cont_refl; reflexivity.
Qed.

Lemma opposite_SFopp (x : spec_float) : opposite x (SFopp x).
Proof. destruct x; simpl; auto. Qed.

(** [b - a] is [a - b] with the other sign. *)
Lemma SFsub_opposite (a b : spec_float) :
  opposite (SF64sub a b) (SF64sub b a).
Proof.
  destruct a as [sa|sa| |sa ma ea], b as [sb|sb| |sb mb eb];
    try (destruct sa; try destruct sb; simpl; auto; fail);
    try (destruct sb; simpl; auto; fail); try exact I.
  unfold SF64sub, SFsub. rewrite (Z.min_comm eb ea).
  set (A := cond_Zopp sa _). set (B := cond_Zopp sb _).
  replace (B - A)%Z with (- (A - B))%Z by lia.
  rewrite binary_normalize_opp.
  destruct (A - B)%Z; [exact I | apply opposite_SFopp | apply opposite_SFopp].
Qed.

Lemma SFadd_cancel (s : bool) (m : positive) (e : Z) :
  SF64add (S754_finite s m e) (S754_finite (negb s) m e) = S754_zero false.
Proof.
  unfold SF64add, SFadd. rewrite Z.min_id.
  unfold shl_align. rewrite Z.sub_diag. cbn [fst].
  destruct s; simpl; now rewrite Z.pos_sub_diag.
Qed.

(** The sum of the two summands of a two-point ring, halved: they cancel
    when finite, and give NaN otherwise. *)
Lemma SF_two_terms (t0 t1 : spec_float) :
  opposite t0 t1 ->
  SF64div
    (SFabs (SF64add (SF64add (S754_zero false) t0) t1)) (Prim2SF 2%float)
  = if SFfinite t0 && SFfinite t1 then S754_zero false else S754_nan.
Proof.
  rewrite Prim2SF_two.
  destruct t0 as [s|s| |s m e], t1 as [s'|s'| |s' m' e']; cbn [opposite];
    try contradiction.
  - intros _. destruct s, s'; reflexivity.
  - intros ->. destruct s; reflexivity.
  - reflexivity.
  - intros (-> & -> & ->).
    change (SF64add (S754_zero false) (S754_finite s m e))
      with (S754_finite s m e).
    rewrite SFadd_cancel. reflexivity.
Qed.

(** The single summand [a - a] of a one-point ring, halved. *)
Lemma SF_one_term (a : spec_float) :
  SF64div (SFabs (SF64add (S754_zero false) (SF64sub a a))) (Prim2SF 2%float)
  = if SFfinite (SF64sub a a) then S754_zero false else S754_nan.
Proof.
  rewrite Prim2SF_two.
  destruct a as [s|s| |s m e]; try (destruct s; reflexivity); [reflexivity|].
  unfold SF64sub, SFsub. rewrite Z.sub_diag. reflexivity.
Qed.

(** [|x| / 2] is never below 0. *)
Lemma SF_half_abs_nonneg (x : spec_float) :
  SFltb (SF64div (SFabs x) (Prim2SF 2%float)) (S754_zero false) = false.
Proof.
  rewrite Prim2SF_two.
  destruct x as [s|s| |s m e]; try reflexivity.
  unfold SFabs, SF64div, SFdiv.
  destruct (SFdiv_core_binary _ _ _ _ _ _) as [[mz ez] lz].
  cbn [xorb].
  destruct (binary_round_aux_cases false mz ez lz)
    as [-> | [-> | [-> | (m' & e' & ->)]]]; reflexivity.
Qed.

(* ================================================================= *)
(** ** The area in binary64 *)

Lemma shoelaceArea64_nonneg (points : list (float * float)) :
  PrimFloat.ltb (Gen.shoelaceArea binary64 points) 0 = false.
Proof.
  unfold Gen.shoelaceArea. cbn [Gen.div Gen.abs Gen.two binary64].
  rewrite ltb_spec, div_spec, abs_spec, Prim2SF_zero.
  apply SF_half_abs_nonneg.
Qed.

Lemma from_SF (r : float) (b : bool) :
  Prim2SF r = (if b then S754_zero false else S754_nan) ->
  r = if b then 0%float else nan.
Proof.
  intro H. apply Prim2SF_inj. rewrite H. now destruct b.
Qed.

Lemma shoelaceArea64_one (x y : float) :
  Gen.shoelaceArea binary64 [(x, y)]
  = if finiteTerms [(x, y)] then 0%float else nan.
Proof.
  change (Gen.shoelaceArea binary64 [(x, y)])
    with (PrimFloat.abs (0 + (x * y - x * y)) / 2)%float.
  change (finiteTerms [(x, y)])
    with (is_finite (x * y - x * y)%float && true).
  rewrite andb_true_r. apply from_SF.
  rewrite div_spec, abs_spec, add_spec, is_finite_SF, sub_spec, Prim2SF_zero.
  apply SF_one_term.
Qed.

Lemma shoelaceArea64_two (x1 y1 x2 y2 : float) :
  Gen.shoelaceArea binary64 [(x1, y1); (x2, y2)]
  = if finiteTerms [(x1, y1); (x2, y2)] then 0%float else nan.
Proof.
  change (Gen.shoelaceArea binary64 [(x1, y1); (x2, y2)])
    with (PrimFloat.abs
            (0 + (x1 * y2 - x2 * y1) + (x2 * y1 - x1 * y2)) / 2)%float.
  change (finiteTerms [(x1, y1); (x2, y2)])
    with (is_finite (x1 * y2 - x2 * y1)%float
          && (is_finite (x2 * y1 - x1 * y2)%float && true)).
  rewrite andb_true_r. apply from_SF.
  rewrite div_spec, abs_spec, !add_spec, !is_finite_SF, !sub_spec,
    Prim2SF_zero.
  apply SF_two_terms, SFsub_opposite.
Qed.

(* ================================================================= *)
(** ** Runs of the area that commit no rounding *)

Section Related.

Variables (A B : Gen.arith) (R : Gen.number A -> Gen.number B -> Prop).

Hypothesis R_zero : R (Gen.zero A) (Gen.zero B).
Hypothesis R_two : R (Gen.two A) (Gen.two B).
Hypothesis R_add : forall a b a' b',
  R a b -> R a' b' -> R (Gen.add A a a') (Gen.add B b b').
Hypothesis R_sub : forall a b a' b',
  R a b -> R a' b' -> R (Gen.sub A a a') (Gen.sub B b b').
Hypothesis R_mul : forall a b a' b',
  R a b -> R a' b' -> R (Gen.mul A a a') (Gen.mul B b b').
Hypothesis R_div : forall a b a' b',
  R a b -> R a' b' -> R (Gen.div A a a') (Gen.div B b b').
Hypothesis R_abs : forall a b, R a b -> R (Gen.abs A a) (Gen.abs B b).

Lemma at_related (l1 : Gen.ring A) (l2 : Gen.ring B) (i : nat) :
  Forall2 (relatedPoints A B R) l1 l2 ->
  relatedPoints A B R (Gen.at_ A l1 i) (Gen.at_ B l2 i).
Proof.
  intro H. revert i. unfold Gen.at_.
  induction H as [|p q l1 l2 Hpq H IH]; intros [|i]; simpl;
    try (split; exact R_zero); auto.
Qed.

Lemma cross_related (p1 p2 : Gen.point A) (q1 q2 : Gen.point B) :
  relatedPoints A B R p1 q1 -> relatedPoints A B R p2 q2 ->
  R (Gen.cross A p1 p2) (Gen.cross B q1 q2).
Proof.
  destruct p1, p2, q1, q2. intros [H1 H2] [H3 H4]. simpl in *.
  apply R_sub; apply R_mul; assumption.
Qed.

(** The same code on related inputs gives related areas. *)
Lemma shoelaceArea_related (l1 : Gen.ring A) (l2 : Gen.ring B) :
  Forall2 (relatedPoints A B R) l1 l2 ->
  R (Gen.shoelaceArea A l1) (Gen.shoelaceArea B l2).
Proof.
  intro H. unfold Gen.shoelaceArea, Gen.shoelaceSum.
  apply R_div; [|exact R_two]. apply R_abs.
  rewrite <- (Forall2_length H).
  generalize (seq 0 (length l1)) (Gen.zero A) (Gen.zero B) R_zero.
  intro idx. induction idx as [|i idx IH]; intros a b Hab; simpl.
  - exact Hab.
  - apply IH. apply R_add; [exact Hab|].
    apply cross_related; apply at_related; exact H.
Qed.

End Related.

Lemma exactly_some (r : float) (q : Q) (x : float) :
  exactly r q = Some x ->
  x = r /\ exists v, valueOf r = Some v /\ v == q.
Proof.
  unfold exactly. destruct (valueOf r) as [v|]; [|discriminate].
  destruct (Qeq_bool v q) eqn:E; [|discriminate].
  intro H. injection H as <-. split; [reflexivity|].
  exists v. split; [reflexivity | now apply Qeq_bool_eq].
Qed.

Lemma checked2_some (f : float -> float -> float) (g : Q -> Q -> Q)
  (x y : option float) (r : float) :
  checked2 f g x y = Some r ->
  exists a b va vb v,
    x = Some a /\ y = Some b /\ valueOf a = Some va /\ valueOf b = Some vb
    /\ r = f a b /\ valueOf r = Some v /\ v == g va vb.
Proof.
  unfold checked2. destruct x as [a|], y as [b|]; try discriminate.
  destruct (valueOf a) as [va|] eqn:Ea; [|discriminate].
  destruct (valueOf b) as [vb|] eqn:Eb; [|discriminate].
  intro H. apply exactly_some in H. destruct H as (-> & v & Hv & Hq).
  exists a, b, va, vb, v. auto 10.
Qed.

Lemma checked1_some (f : float -> float) (g : Q -> Q)
  (x : option float) (r : float) :
  checked1 f g x = Some r ->
  exists a va v,
    x = Some a /\ valueOf a = Some va
    /\ r = f a /\ valueOf r = Some v /\ v == g va.
Proof.
  unfold checked1. destruct x as [a|]; try discriminate.
  destruct (valueOf a) as [va|] eqn:Ea; [|discriminate].
  intro H. apply exactly_some in H. destruct H as (-> & v & Hv & Hq).
  exists a, va, v. auto 10.
Qed.

Lemma checked_sameRun (l : list (float * float)) :
  sameRun (Gen.shoelaceArea checked (checkedRing l))
    (Gen.shoelaceArea binary64 l).
Proof.
  apply (shoelaceArea_related checked binary64 sameRun).
  - intros r H. now injection H.
  - intros r H. now injection H.
  - intros a b a' b' H H' r E. apply checked2_some in E.
    destruct E as (x & y & _ & _ & _ & -> & -> & _ & _ & -> & _).
    simpl. now rewrite (H x eq_refl), (H' y eq_refl).
  - intros a b a' b' H H' r E. apply checked2_some in E.
    destruct E as (x & y & _ & _ & _ & -> & -> & _ & _ & -> & _).
    simpl. now rewrite (H x eq_refl), (H' y eq_refl).
  - intros a b a' b' H H' r E. apply checked2_some in E.
    destruct E as (x & y & _ & _ & _ & -> & -> & _ & _ & -> & _).
    simpl. now rewrite (H x eq_refl), (H' y eq_refl).
  - intros a b a' b' H H' r E. apply checked2_some in E.
    destruct E as (x & y & _ & _ & _ & -> & -> & _ & _ & -> & _).
    simpl. now rewrite (H x eq_refl), (H' y eq_refl).
  - intros a b H r E. apply checked1_some in E.
    destruct E as (x & _ & _ & -> & _ & -> & _).
    simpl. now rewrite (H x eq_refl).
  - unfold checkedRing. induction l as [|[x y] l IH]; simpl; constructor.
    + split; intros r H; now injection H.
    + exact IH.
Qed.

Lemma checked_sameValue (l : list (float * float)) :
  sameValue (Gen.shoelaceArea checked (checkedRing l))
    (shoelaceArea (rationalRing l)).
Proof.
  change (shoelaceArea (rationalRing l))
    with (Gen.shoelaceArea rational (rationalRing l)).
  apply (shoelaceArea_related checked rational sameValue).
  - intros r v H. injection H as <-. intro Hv. now injection Hv as <-.
  - intros r v H. injection H as <-. intro Hv. now injection Hv as <-.
  - intros a b a' b' H H' r v E Hv. apply checked2_some in E.
    destruct E as (x & y & vx & vy & v' & -> & -> & Hx & Hy & -> & Hr & Hq).
    rewrite Hr in Hv. injection Hv as <-. simpl.
    now rewrite Hq, (H x vx eq_refl Hx), (H' y vy eq_refl Hy).
  - intros a b a' b' H H' r v E Hv. apply checked2_some in E.
    destruct E as (x & y & vx & vy & v' & -> & -> & Hx & Hy & -> & Hr & Hq).
    rewrite Hr in Hv. injection Hv as <-. simpl.
    now rewrite Hq, (H x vx eq_refl Hx), (H' y vy eq_refl Hy).
  - intros a b a' b' H H' r v E Hv. apply checked2_some in E.
    destruct E as (x & y & vx & vy & v' & -> & -> & Hx & Hy & -> & Hr & Hq).
    rewrite Hr in Hv. injection Hv as <-. simpl.
    now rewrite Hq, (H x vx eq_refl Hx), (H' y vy eq_refl Hy).
  - intros a b a' b' H H' r v E Hv. apply checked2_some in E.
    destruct E as (x & y & vx & vy & v' & -> & -> & Hx & Hy & -> & Hr & Hq).
    rewrite Hr in Hv. injection Hv as <-. simpl.
    now rewrite Hq, (H x vx eq_refl Hx), (H' y vy eq_refl Hy).
  - intros a b H r v E Hv. apply checked1_some in E.
    destruct E as (x & vx & v' & -> & Hx & -> & Hr & Hq).
    rewrite Hr in Hv. injection Hv as <-. simpl.
    now rewrite Hq, (H x vx eq_refl Hx).
  - unfold checkedRing, rationalRing.
    induction l as [|[x y] l IH]; simpl; constructor.
    + split; intros r v H Hv; injection H as <-; simpl;
        unfold rationalOf; now rewrite Hv.
    + exact IH.
Qed.

Lemma checked_has_value (l : list (float * float)) (r : float) :
  Gen.shoelaceArea checked (checkedRing l) = Some r ->
  exists v, valueOf r = Some v.
Proof.
  unfold Gen.shoelaceArea. cbn [Gen.div checked]. intro H.
  apply checked2_some in H.
  destruct H as (_ & _ & _ & _ & v & _ & _ & _ & _ & _ & Hv & _). eauto.
Qed.

Lemma rationalRing_rev (l : list (float * float)) :
  rationalRing (rev l) = rev (rationalRing l).
Proof. apply map_rev. Qed.

Lemma rationalRing_rotate (k : nat) (l : list (float * float)) :
  rationalRing (rotateList k l) = rotate k (rationalRing l).
Proof.
  unfold rationalRing, rotateList, rotate.
  now rewrite map_app, skipn_map, firstn_map, length_map.
Qed.
Lemma digits2_pos_shift (k : nat) :
  forall m1 m2 : positive,
    (Zpos m1 = Zpos m2 * 2 ^ Z.of_nat k)%Z ->
    (Zpos (digits2_pos m1) = Zpos (digits2_pos m2) + Z.of_nat k)%Z.
Proof.
  induction k as [|k IH]; intros m1 m2 H.
  - change (2 ^ Z.of_nat 0)%Z with 1%Z in H. rewrite Z.mul_1_r in H.
    injection H as ->. lia.
  - rewrite Nat2Z.inj_succ, Z.pow_succ_r in H by lia.
    destruct m1 as [m1|m1|]; try lia.
    cbn [digits2_pos]. rewrite Pos2Z.inj_succ.
    rewrite (IH m1 m2); lia.
Qed.

Lemma two_power_split (e1 e2 : Z) :
  2 ^ e2 == 2 ^ e1 * 2 ^ (e2 - e1).
Proof.
  rewrite <- Qpower_plus by discriminate. now replace (e1 + (e2 - e1))%Z with e2 by lia.
Qed.

Lemma mantissa_scaled (m1 m2 : positive) (e1 e2 : Z) :
  (e1 <= e2)%Z ->
  inject_Z (Zpos m1) * 2 ^ e1 == inject_Z (Zpos m2) * 2 ^ e2 ->
  (Zpos m1 = Zpos m2 * 2 ^ (e2 - e1))%Z.
Proof.
  intros Hle H. rewrite (two_power_split e1 e2) in H.
  apply inject_Z_injective. rewrite inject_Z_mult.
  rewrite Zpower_Qpower by lia.
  apply (Qmult_inj_r _ _ (2 ^ e1)).
  - intro E. pose proof (Qpower_0_lt 2 e1 eq_refl) as P. rewrite E in P.
    discriminate.
  - rewrite H. change (inject_Z 2) with 2. ring.
Qed.

Lemma canonical_unique_le (m1 m2 : positive) (e1 e2 : Z) :
  (e1 <= e2)%Z ->
  canonical_mantissa prec emax m1 e1 = true ->
  canonical_mantissa prec emax m2 e2 = true ->
  inject_Z (Zpos m1) * 2 ^ e1 == inject_Z (Zpos m2) * 2 ^ e2 ->
  m1 = m2 /\ e1 = e2.
Proof.
  intros Hle C1 C2 H. apply mantissa_scaled in H; [|exact Hle].
  assert (D : (Zpos (digits2_pos m1) = Zpos (digits2_pos m2) + (e2 - e1))%Z).
  { rewrite <- (Z2Nat.id (e2 - e1)) by lia. apply digits2_pos_shift.
    rewrite Z2Nat.id by lia. exact H. }
  unfold canonical_mantissa in C1, C2. apply Z.eqb_eq in C1, C2.
  replace (Zpos (digits2_pos m1) + e1)%Z
    with (Zpos (digits2_pos m2) + e2)%Z in C1 by lia.
  assert (E : e1 = e2) by congruence. subst e2.
  rewrite Z.sub_diag in H. simpl in H. split; [lia | reflexivity].
Qed.

Lemma canonical_unique (m1 m2 : positive) (e1 e2 : Z) :
  canonical_mantissa prec emax m1 e1 = true ->
  canonical_mantissa prec emax m2 e2 = true ->
  inject_Z (Zpos m1) * 2 ^ e1 == inject_Z (Zpos m2) * 2 ^ e2 ->
  m1 = m2 /\ e1 = e2.
Proof.
  intros C1 C2 H. destruct (Z.le_ge_cases e1 e2) as [L|L].
  - now apply canonical_unique_le.
  - symmetry in H. destruct (canonical_unique_le m2 m1 e2 e1 L C2 C1 H).
    now split.
Qed.

Lemma mantissa_value_pos (m : positive) (e : Z) :
  0 < inject_Z (Zpos m) * 2 ^ e.
Proof.
  apply Qmult_lt_0_compat; [reflexivity | now apply Qpower_0_lt].
Qed.

(** Two doubles that stand for the same number are the same double, or two
    zeros. *)
Lemma SFvalue_inj (x y : spec_float) (v w : Q) :
  valid_binary x = true -> valid_binary y = true ->
  SFvalue x = Some v -> SFvalue y = Some w -> v == w ->
  x = y \/ exists s s', x = S754_zero s /\ y = S754_zero s'.
Proof.
  destruct x as [sx|sx| |sx mx ex], y as [sy|sy| |sy my ey]; simpl;
    try discriminate; intros Vx Vy Hv Hw E;
    injection Hv as <-; injection Hw as <-.
  - right. eauto.
  - exfalso. pose proof (mantissa_value_pos my ey) as P.
    destruct sy; lra.
  - exfalso. pose proof (mantissa_value_pos mx ex) as P.
    destruct sx; lra.
  - left. unfold bounded in Vx, Vy.
    apply andb_true_iff in Vx, Vy. destruct Vx as [Cx _], Vy as [Cy _].
    pose proof (mantissa_value_pos mx ex) as Px.
    pose proof (mantissa_value_pos my ey) as Py.
    assert (E' : sx = sy
                 /\ inject_Z (Zpos mx) * 2 ^ ex == inject_Z (Zpos my) * 2 ^ ey).
    { destruct sx, sy; (split; [reflexivity || (exfalso; lra) | lra]). }
    destruct E' as [-> E'].
    destruct (canonical_unique mx my ex ey Cx Cy E') as [-> ->].
    reflexivity.
Qed.

(** [|x| / 2] is never the negative zero. *)
Lemma SF_half_abs_zero (x : spec_float) (s : bool) :
  SF64div (SFabs x) (Prim2SF 2%float) = S754_zero s -> s = false.
Proof.
  rewrite Prim2SF_two.
  destruct x as [sx|sx| |sx m e]; simpl; try discriminate.
  - intro H. now injection H as <-.
  - unfold SF64div, SFdiv.
    destruct (SFdiv_core_binary _ _ _ _ _ _) as [[mz ez] lz].
    cbn [xorb].
    destruct (binary_round_aux_cases false mz ez lz)
      as [-> | [-> | [-> | (m' & e' & ->)]]]; try discriminate.
    intro H. now injection H as <-.
Qed.

Lemma shoelaceArea64_same_value (l1 l2 : list (float * float)) (v w : Q) :
  valueOf (Gen.shoelaceArea binary64 l1) = Some v ->
  valueOf (Gen.shoelaceArea binary64 l2) = Some w ->
  v == w ->
  Gen.shoelaceArea binary64 l1 = Gen.shoelaceArea binary64 l2.
Proof.
  unfold valueOf. intros Hv Hw E. apply Prim2SF_inj.
  destruct (SFvalue_inj _ _ v w (Prim2SF_valid _) (Prim2SF_valid _) Hv Hw E)
    as [H | (s & s' & H1 & H2)]; [exact H|].
  rewrite H1, H2.
  unfold Gen.shoelaceArea in H1, H2.
  cbn [Gen.div Gen.abs Gen.two binary64] in H1, H2.
  rewrite div_spec, abs_spec in H1, H2.
  apply SF_half_abs_zero in H1, H2. now subst.
Qed.

(** A run that rounds nowhere returns the double of the exact area. *)
Lemma exactRun_value (l : list (float * float)) :
  exactRun l = true ->
  exists v, valueOf (Gen.shoelaceArea binary64 l) = Some v
            /\ v == shoelaceArea (rationalRing l).
Proof.
  unfold exactRun.
  destruct (Gen.shoelaceArea checked (checkedRing l)) as [r|] eqn:E;
    [intros _ | discriminate].
  destruct (checked_has_value l r E) as (v & Hv).
  pose proof (checked_sameRun l r E) as <-.
  exists v. split; [exact Hv|].
  exact (checked_sameValue l r v E Hv).
Qed.

(** C8: in binary64 the result of [shoelaceArea] never compares below 0
    (it can be NaN); and whenever the run on a ring and the run on the
    reversed ring, or on the ring started [k] vertices later, round
    nowhere, the two runs return the same double. *)
Theorem shoelaceArea_binary64_invariant_when_exact
  (points : list (float * float)) (k : nat) :
  PrimFloat.ltb (Gen.shoelaceArea binary64 points) 0 = false
  /\ (exactRun points = true -> exactRun (rev points) = true ->
      Gen.shoelaceArea binary64 (rev points)
      = Gen.shoelaceArea binary64 points)
  /\ (exactRun points = true -> exactRun (rotateList k points) = true ->
      Gen.shoelaceArea binary64 (rotateList k points)
      = Gen.shoelaceArea binary64 points).
Proof.
  split; [apply shoelaceArea64_nonneg|].
  split; intros H H'; apply exactRun_value in H, H';
    destruct H as (v & Hv & E), H' as (w & Hw & E');
    apply (shoelaceArea64_same_value _ _ w v Hw Hv); rewrite E, E'.
  - rewrite rationalRing_rev.
    apply shoelaceArea_rational_rev.
  - rewrite rationalRing_rotate.
    apply shoelaceArea_rational_rotate.
Qed.

Lemma shoelaceArea_binary64_invariant_when_exact_witness :
  exactRun square64 = true
  /\ exactRun (rev square64) = true
  /\ exactRun (rotateList 1 square64) = true
  /\ Gen.shoelaceArea binary64 (rev square64)
     = Gen.shoelaceArea binary64 square64
  /\ Gen.shoelaceArea binary64 (rotateList 1 square64)
     = Gen.shoelaceArea binary64 square64.
Proof.
  destruct (shoelaceArea_binary64_invariant_when_exact square64 1)
    as (_ & Hrev & Hrot).
  split; [reflexivity|]. split; [reflexivity|]. split; [reflexivity|].
  split; [exact (Hrev eq_refl eq_refl) | exact (Hrot eq_refl eq_refl)].
Defined.

(** C8, as stated, fails in binary64: the triangle
    [[1.8, 2.7], [2.5, 2.4], [0.2, 0.8]] has the computed area
    [0.9049999999999999], and [0.905] when started two vertices later. *)
Lemma shoelaceArea_binary64_depends_on_start :
  Gen.shoelaceArea binary64 triangle64 = 0.9049999999999999%float
  /\ rotateList 2 triangle64 = [(0.2, 0.8); (1.8, 2.7); (2.5, 2.4)]%float
  /\ Gen.shoelaceArea binary64 (rotateList 2 triangle64) = 0.905%float
  /\ PrimFloat.eqb (Gen.shoelaceArea binary64 (rotateList 2 triangle64))
       (Gen.shoelaceArea binary64 triangle64) = false.
Proof. split; [|split; [|split]]; vm_compute; reflexivity. Qed.

(* ================================================================= *)
(** ** Rings of fewer than three points in binary64 *)

(** C9: in binary64 a ring with fewer than three points has the area 0
    when the summands [x1 * y2 - x2 * y1] the loop adds are all finite, and
    NaN otherwise; [shoelaceArea] is a total function, so nothing is
    raised. *)
Theorem shoelaceArea_binary64_degenerate (points : list (float * float)) :
  (length points < 3)%nat ->
  Gen.shoelaceArea binary64 points
  = if finiteTerms points then 0%float else nan.
Proof.
  intro H. destruct points as [|[x1 y1] [|[x2 y2] [|p r]]].
  - reflexivity.
  - apply shoelaceArea64_one.
  - apply shoelaceArea64_two.
  - simpl in H. lia.
Qed.

Lemma shoelaceArea_binary64_degenerate_witness :
  (length segment64 < 3)%nat
  /\ Gen.shoelaceArea binary64 segment64 = 0%float.
Proof.
  split; [simpl; lia|].
  apply (shoelaceArea_binary64_degenerate segment64). simpl. lia.
Defined.

(** C9, as stated, fails in binary64: for the one-point ring
    [[1e200, 1e200]] the product of the coordinates overflows and the
    result is NaN, which is not 0. *)
Lemma shoelaceArea_binary64_overflow_nan :
  (length farPoint64 < 3)%nat
  /\ Gen.shoelaceArea binary64 farPoint64 = nan
  /\ PrimFloat.eqb (Gen.shoelaceArea binary64 farPoint64) 0 = false.
Proof. split; [simpl; lia | split; reflexivity]. Qed.

(* ================================================================= *)
(** ** The chord search in binary64 *)

Lemma findOptimalSplit_first_within_else_least_witness :
  Gen.findOptimalSplit binary64 closedSquare64 (100 / 3)%float 10 0.05%float
  = Some (piecesOf binary64 closedSquare64 10 (0, 2, 4, 1)%nat).
Proof.
  destruct (findOptimalSplit_first_within_else_least binary64
              binary64_ordered closedSquare64 (100 / 3)%float 10 0.05%float)
    as (_ & _ & H).
  exact H.
Defined.

(** C1, as stated, fails in binary64: on the square of side [1e155] every
    candidate's area overflows, no [diff] is below [Infinity], and the
    search returns [null] although it visited 324 candidates, none of them
    within tolerance. *)
Lemma findOptimalSplit_overflow_null :
  length (candidates (length hugeSquare64) 10) = 324%nat
  /\ find (fun c =>
             PrimFloat.ltb
               (PrimFloat.abs
                  (Gen.shoelaceArea binary64
                     (fst (piecesOf binary64 hugeSquare64 10 c)) - 1))
               (0.05 * 1))%float
       (candidates (length hugeSquare64) 10) = None
  /\ Gen.findOptimalSplit binary64 hugeSquare64 1%float 10 0.05%float = None.
Proof. split; [|split]; vm_compute; reflexivity. Qed.

(** X2: with a strict order, the search returns [null] exactly when no
    visited chord has a [diff] within tolerance or below [Infinity]; in
    exact arithmetic that is when nothing is visited, in binary64 also when
    every [diff] is NaN or infinite. *)
Theorem findOptimalSplit_null_iff (A : Gen.arith) (order : Gen.ordered A)
  (polygon : Gen.ring A) (targetArea : Gen.number A) (steps : nat)
  (tolerance : Gen.number A) :
  Gen.findOptimalSplit A polygon targetArea steps tolerance = None
  <-> forall c, In c (candidates (length polygon) steps) ->
        Gen.ltb A (distanceOf A polygon targetArea steps c)
          (Gen.mul A tolerance targetArea) = false
        /\ Gen.belowInfinity A (distanceOf A polygon targetArea steps c)
           = false.
Proof.
  rewrite gen_findOptimalSplit_linear.
  assert (H0 : leastOf A polygon targetArea steps [] (None, None))
    by (intros c []).
  pose proof (gen_search_run A polygon targetArea steps tolerance order
                (candidates (length polygon) steps) [] (None, None) H0) as H.
  destruct (forEach _ _ _) as [[[split|] [d|]]|split]; cbn [app] in H.
  - destruct H as (_ & c & Hin & _ & -> & Hfin & _).
    split; [discriminate|]. intro Hall.
    destruct (Hall c Hin) as [_ E]. congruence.
  - destruct H as (_ & []).
  - destruct H as (_ & []).
  - destruct H as (Hfind & Hall). split; [|reflexivity].
    intros _ c Hc. split; [|now apply Hall].
    exact (find_none _ _ Hfind c Hc).
  - destruct H as (c & Hfind & _). split; [discriminate|]. intro Hall.
    apply find_some in Hfind. destruct Hfind as [Hin E].
    destruct (Hall c Hin) as [E' _]. congruence.
Qed.

Lemma findOptimalSplit_null_iff_witness :
  Forall
    (fun c =>
       PrimFloat.ltb (distanceOf binary64 hugeSquare64 1%float 10 c)
         (0.05 * 1)%float = false
       /\ PrimFloat.ltb (distanceOf binary64 hugeSquare64 1%float 10 c)
            infinity = false)
    (candidates (length hugeSquare64) 10).
Proof.
  apply Forall_forall.
  exact (proj1 (findOptimalSplit_null_iff binary64 binary64_ordered
                  hugeSquare64 1%float 10 0.05%float) eq_refl).
Defined.
